(** * UMAP simplicial-set embedding: layout optimizer

    A shallow embedding of [cpp/src/umap/simpl_set_embed/algo.h]
    (namespace [UMAPAlgo::SimplSetEmbed::Algo]) and the properties of its
    specification.

    Conventions of the embedding.
    - The template type [T] and [double] are both read as exact rationals
      [Q]: rounding, infinities and NaN are outside this model, and a
      division by zero gives 0 in it.
    - Where a property depends on what the floating-point operations
      return outside the rationals, the kernel is embedded a second time,
      in module [IEEE], on the binary formats and operations of
      [SpecFloat]: a NaN is a value there, and comparing with it fails.
    - [int] values are integers [Z]; signed overflow is undefined in the
      source and is not modelled.  [%] is C++'s truncating remainder
      ([Z.rem]), the conversion [int(x)] truncates toward zero.
    - Device memory holding embeddings is a heap of buffers; a pointer is a
      buffer together with an offset, so that the test
      [head_embedding == tail_embedding] of the source is the equality of
      two pointers, and two pointers into one buffer alias.
    - An access outside a buffer, a division [r % 0] and the dereference of
      an end iterator are undefined in the source; the model returns [None]
      there, which is also how a failed kernel launch reaches
      [CUDA_CHECK].
    - The threads of one kernel launch are run one after the other, in
      increasing [row] order.
    - [atomicAdd] calls and kernel launches are recorded in two logs that
      the program itself never reads. *)

From Stdlib Require Import ZArith QArith Qround Lia Lqa SpecFloat.
From stdpp Require Import base option list gmap.

Local Open Scope Z_scope.
Local Open Scope Q_scope.

(** ** Numbers *)

(** [x < y] on [T] and [double], as a test. *)
Definition Qltb (x y : Q) : bool := negb (Qle_bool y x).

(** [int(x)]: conversion of a floating value to [int], toward zero. *)
Definition Qtrunc (x : Q) : Z := Z.quot (Qnum x) (Z.pos (Qden x)).

(** [l[i]] for an [int] index. *)
Definition lookupZ {A} (l : list A) (i : Z) : option A :=
  if (0 <=? i)%Z then l !! Z.to_nat i else None.

(** [l[i] = x] for an [int] index; [None] outside the array. *)
Definition storeZ {A} (l : list A) (i : Z) (x : A) : option (list A) :=
  if ((0 <=? i) && (i <? Z.of_nat (length l)))%Z
  then Some (<[Z.to_nat i := x]> l) else None.

(** [for (int i = start; ...; i++) body], run [count] times. *)
Fixpoint for_loop {St} (count : nat) (i : Z) (body : Z → St → option St)
    (s : St) : option St :=
  match count with
  | O => Some s
  | S c => s' ← body i s; for_loop c (i + 1)%Z body s'
  end.

(** [for (int i = 0; i < n; i++) body]. *)
Definition for_range {St} (n : Z) (body : Z → St → option St) (s : St)
    : option St :=
  for_loop (Z.to_nat n) 0%Z body s.

(** ** What the source takes from outside

    [pow] of [<math.h>], the Philox generator of [random/rng_impl.h] and
    the clock read by [gettimeofday] are not part of the file. *)
Class Externals := {
  (** [pow(x, y)] *)
  pow : Q → Q → Q;
  (** [PhiloxGenerator gen(seed, subsequence, offset)]: the [int] that
      the [p]-th call of [gen.next] returns (p counted from 0). *)
  philox_next : Z → Z → Z → Z → Z;
  (** [gettimeofday]: [(tv_sec, tv_usec)] read at the start of epoch [n]. *)
  gettimeofday : Z → Z * Z
}.

(** [ML::UMAPParams], the fields the file reads.  The callback receives
    the head embedding and may rewrite it. *)
Module ML.
Record UMAPParams := {
  a : Q;
  b : Q;
  n_components : Z;
  negative_sample_rate : Z;
  repulsion_strength : Q;
  initial_alpha : Q;
  n_epochs : Z;
  verbose : bool;
  callback : option (list Q → list Q)
}.
End ML.
Abbreviation UMAPParams := ML.UMAPParams.

(** ** Device memory *)

Record devptr := { base : nat; off : Z }.

Global Instance devptr_eq_dec : EqDecision devptr.
Proof. solve_decision. Defined.

(** [p + k] *)
Definition ptr_add (p : devptr) (k : Z) : devptr :=
  {| base := base p; off := (off p + k)%Z |}.

(** [*p] *)
Definition load (m : gmap nat (list Q)) (p : devptr) : option Q :=
  buf ← m !! base p; lookupZ buf (off p).

(** The state a kernel launch works on: the embeddings, the two counter
    arrays, and the log of [atomicAdd] calls (target and added value). *)
Record kstate := {
  mem : gmap nat (list Q);
  epoch_of_next_sample : list Q;
  epoch_of_next_negative_sample : list Q;
  adds : list (devptr * Q)
}.

(** [atomicAdd(p, v)] *)
Definition atomicAdd (p : devptr) (v : Q) (st : kstate) : option kstate :=
  buf ← mem st !! base p;
  old ← lookupZ buf (off p);
  Some {| mem := <[base p := <[Z.to_nat (off p) := old + v]> buf]> (mem st);
          epoch_of_next_sample := epoch_of_next_sample st;
          epoch_of_next_negative_sample := epoch_of_next_negative_sample st;
          adds := adds st ++ [(p, v)] |}.

(** ** Gradient math *)

Section Gradient.
Context `{Externals}.

(** Lines 50-55. *)
Definition rdist (m : gmap nat (list Q)) (X Y : devptr) (n : Z) : option Q :=
  for_range n
    (λ i result,
       x ← load m (ptr_add X i);
       y ← load m (ptr_add Y i);
       Some (result + pow (x - y) 2))
    0.

(** Lines 108-114. *)
Definition repulsive_grad (dist_squared gamma : Q) (params : UMAPParams) : Q :=
  let grad_coeff := 2 * gamma * ML.b params in
  grad_coeff /
    ((0.001 + dist_squared) *
     (ML.a params * pow dist_squared (ML.b params) + 1)).

(** Lines 119-125. *)
Definition attractive_grad (dist_squared : Q) (params : UMAPParams) : Q :=
  let grad_coeff :=
    (-2) * ML.a params * ML.b params * pow dist_squared (ML.b params - 1) in
  grad_coeff / (ML.a params * pow dist_squared (ML.b params) + 1).
End Gradient.

(** Lines 96-103. *)
Definition clip (val lb ub : Q) : Q :=
  if Qltb ub val then ub
  else if Qltb val lb then lb
  else val.

(** ** Epoch schedule builder *)

(** [*thrust::max_element(first, last)]: the first largest element;
    [None] on an empty range, where the source dereferences [last]. *)
Definition max_element (l : list Q) : option Q :=
  match l with
  | [] => None
  | x :: l' => Some (fold_left (λ m y, if Qltb m y then y else m) l' x)
  end.

(** [MLCommon::LinAlg::unaryOp(out, in, len, op)]: [out[i] = op(in[i])]
    for [i < len]. *)
Definition unaryOp (out inp : list Q) (len : Z) (op : Q → Q)
    : option (list Q) :=
  if ((len <=? Z.of_nat (length inp)) && (len <=? Z.of_nat (length out)))%Z
  then Some ((op <$> take (Z.to_nat len) inp) ++ drop (Z.to_nat len) out)
  else None.

(** The lambda of lines 83-89. *)
Definition epochs_per_sample_of (n_epochs : Z) (weights_max input : Q) : Q :=
  let v := inject_Z n_epochs * (input / weights_max) in
  if Qltb 0 v then inject_Z n_epochs / v else (-1).

(** Lines 66-91. *)
Definition make_epochs_per_sample (weights : list Q) (weights_n n_epochs : Z)
    (result : list Q) : option (list Q) :=
  weights_max ← max_element (take (Z.to_nat weights_n) weights);
  unaryOp result weights weights_n (epochs_per_sample_of n_epochs weights_max).

(** ** The kernel *)

(** The arguments of one launch of [optimize_batch_kernel]
    (lines 134-139).  The counter arrays are in [kstate]. *)
Module K.
Record kernel_args := {
  head_embedding : devptr;
  head_n : Z;
  tail_embedding : devptr;
  tail_n : Z;
  head : list Z;
  tail : list Z;
  nnz : Z;
  epochs_per_sample : list Q;
  n_vertices : Z;
  move_other : bool;
  epochs_per_negative_sample : list Q;
  alpha : Q;
  epoch : Z;
  gamma : Q;
  seed : Z;
  params : UMAPParams
}.
End K.
Abbreviation kernel_args := K.kernel_args.

Section Kernel.
Context `{Externals}.
Variable ka : kernel_args.

Local Abbreviation nc := (ML.n_components (K.params ka)).

(** Lines 169-176: one dimension of the attractive update. *)
Definition attractive_update (attractive_grad_coeff : Q)
    (current other : devptr) (d : Z) (st : kstate) : option kstate :=
  cd ← load (mem st) (ptr_add current d);
  od ← load (mem st) (ptr_add other d);
  let grad_d := clip (attractive_grad_coeff * (cd - od)) (-4) 4 in
  st' ← atomicAdd (ptr_add current d) (grad_d * K.alpha ka) st;
  if K.move_other ka
  then atomicAdd (ptr_add other d) (- grad_d * K.alpha ka) st'
  else Some st'.

(** Lines 210-217: one dimension of the repulsive update. *)
Definition repulsive_update (repulsive_grad_coeff : Q)
    (current negative_sample : devptr) (d : Z) (st : kstate)
    : option kstate :=
  grad_d ←
    (if Qltb 0 repulsive_grad_coeff
     then cd ← load (mem st) (ptr_add current d);
          nd ← load (mem st) (ptr_add negative_sample d);
          Some (clip (repulsive_grad_coeff * (cd - nd)) (-4) 4)
     else Some 4);
  atomicAdd (ptr_add current d) (grad_d * K.alpha ka) st.

(** Lines 191-193: the vertex [t] that the [p]-th draw of the thread of
    [row] picks. *)
Definition negative_candidate (row p : Z) : Z :=
  let r := philox_next (K.seed ka) row 0 p in
  Z.rem r (K.tail_n ka).

(** Lines 191-218: the [p]-th negative draw of the thread of [row],
    whose edge has head vertex [j]. *)
Definition negative_draw (row j : Z) (current : devptr) (p : Z)
    (st : kstate) : option kstate :=
  if (K.tail_n ka =? 0)%Z then None else
  let t := negative_candidate row p in
  let negative_sample := ptr_add (K.tail_embedding ka) (t * nc) in
  dist_squared ← rdist (mem st) current negative_sample nc;
  let coeff :=
    if Qltb 0 dist_squared
    then Some (repulsive_grad dist_squared (K.gamma ka) (K.params ka))
    else if (j =? t)%Z then None
    else Some 0 in
  match coeff with
  | None => Some st
  | Some repulsive_grad_coeff =>
      for_range nc
        (repulsive_update repulsive_grad_coeff current negative_sample) st
  end.

(** [epoch_of_next_sample[row] += x] *)
Definition bump_next_sample (row : Z) (x : Q) (st : kstate)
    : option kstate :=
  old ← lookupZ (epoch_of_next_sample st) row;
  l ← storeZ (epoch_of_next_sample st) row (old + x);
  Some {| mem := mem st;
          epoch_of_next_sample := l;
          epoch_of_next_negative_sample := epoch_of_next_negative_sample st;
          adds := adds st |}.

(** [epoch_of_next_negative_sample[row] += x] *)
Definition bump_next_negative_sample (row : Z) (x : Q) (st : kstate)
    : option kstate :=
  old ← lookupZ (epoch_of_next_negative_sample st) row;
  l ← storeZ (epoch_of_next_negative_sample st) row (old + x);
  Some {| mem := mem st;
          epoch_of_next_sample := epoch_of_next_sample st;
          epoch_of_next_negative_sample := l;
          adds := adds st |}.

(** Lines 140-224: the thread of [row]. *)
Definition kernel_thread (row : Z) (st : kstate) : option kstate :=
  if (row <? K.nnz ka)%Z then
    next ← lookupZ (epoch_of_next_sample st) row;
    if Qle_bool next (inject_Z (K.epoch ka)) then
      j ← lookupZ (K.head ka) row;
      k ← lookupZ (K.tail ka) row;
      let current := ptr_add (K.head_embedding ka) (j * nc) in
      let other := ptr_add (K.tail_embedding ka) (k * nc) in
      dist_squared ← rdist (mem st) current other nc;
      let attractive_grad_coeff :=
        if Qltb 0 dist_squared
        then attractive_grad dist_squared (K.params ka) else 0 in
      st ← for_range nc
             (attractive_update attractive_grad_coeff current other) st;
      eps ← lookupZ (K.epochs_per_sample ka) row;
      st ← bump_next_sample row eps st;
      next_neg ← lookupZ (epoch_of_next_negative_sample st) row;
      epns ← lookupZ (K.epochs_per_negative_sample ka) row;
      let n_neg_samples :=
        Qtrunc ((inject_Z (K.epoch ka) - next_neg) / epns) in
      st ← for_range n_neg_samples (negative_draw row j current) st;
      bump_next_negative_sample row (inject_Z n_neg_samples * epns) st
    else Some st
  else Some st.

(** The launch [<<<grid, blk>>>] with [grid = ceildiv(nnz, TPB_X)] blocks
    of [TPB_X] threads; thread [row = blockIdx.x * TPB_X + threadIdx.x]. *)
Definition ceildiv (x y : Z) : Z := ((x + y - 1) / y)%Z.

Definition optimize_batch_kernel (TPB_X : Z) (st : kstate) : option kstate :=
  for_range (ceildiv (K.nnz ka) TPB_X * TPB_X) kernel_thread st.
End Kernel.

(** ** The driver *)

(** The arguments of [optimize_layout] (lines 237-242). *)
Module L.
Record layout_args := {
  head_embedding : devptr;
  head_n : Z;
  tail_embedding : devptr;
  tail_n : Z;
  head : list Z;
  tail : list Z;
  nnz : Z;
  epochs_per_sample : list Q;
  n_vertices : Z;
  gamma : Q;
  params : UMAPParams;
  n_epochs : Z
}.
End L.
Abbreviation layout_args := L.layout_args.

(** The state of the epoch loop: what the kernel works on, the local
    [alpha], and the log of the launches made so far. *)
Record lstate := {
  ks : kstate;
  alpha : Q;
  launches : list kernel_args
}.

(** [MLCommon::device_buffer<T> buf(d_alloc, stream, n)]; the content is
    unspecified until written, zeros here. *)
Definition device_buffer (n : Z) : list Q := replicate (Z.to_nat n) 0.

(** [MLCommon::copy(dst, src, len, stream)] *)
Definition copy (dst src : list Q) (len : Z) : option (list Q) :=
  unaryOp dst src len (λ x, x).

(** [params->callback->on_epoch_end(head_embedding)] *)
Definition on_epoch_end (f : list Q → list Q) (p : devptr) (st : kstate)
    : option kstate :=
  buf ← mem st !! base p;
  Some {| mem := <[base p := f buf]> (mem st);
          epoch_of_next_sample := epoch_of_next_sample st;
          epoch_of_next_negative_sample := epoch_of_next_negative_sample st;
          adds := adds st |}.

Section Driver.
Context `{Externals}.
Variable TPB_X : Z.
Variable la : layout_args.

(** Line 244. *)
Definition move_other_of : bool :=
  bool_decide (L.head_embedding la = L.tail_embedding la).

(** Lines 248-253. *)
Definition epochs_per_negative_sample_of : option (list Q) :=
  let nsr := ML.negative_sample_rate (L.params la) in
  unaryOp (device_buffer (L.nnz la)) (L.epochs_per_sample la) (L.nnz la)
    (λ input, input / inject_Z nsr).

(** Lines 246-261: the state in which the epoch loop starts, on the
    device memory [m]. *)
Definition optimize_layout_init (m : gmap nat (list Q)) : option lstate :=
  epochs_per_negative_sample ← epochs_per_negative_sample_of;
  next_neg ← copy (device_buffer (L.nnz la)) epochs_per_negative_sample
                  (L.nnz la);
  next ← copy (device_buffer (L.nnz la)) (L.epochs_per_sample la) (L.nnz la);
  Some {| ks := {| mem := m;
                   epoch_of_next_sample := next;
                   epoch_of_next_negative_sample := next_neg;
                   adds := [] |};
          alpha := ML.initial_alpha (L.params la);
          launches := [] |}.

(** The arguments of the launch of epoch [n] (lines 271-275), with the
    seed of lines 267-269 converted to [uint64_t]. *)
Definition launch_args (epochs_per_negative_sample : list Q) (n : Z)
    (alpha : Q) : kernel_args :=
  let tp := gettimeofday n in
  let seed := (tp.1 * 1000 + tp.2)%Z in
  {| K.head_embedding := L.head_embedding la;
     K.head_n := L.head_n la;
     K.tail_embedding := L.tail_embedding la;
     K.tail_n := L.tail_n la;
     K.head := L.head la;
     K.tail := L.tail la;
     K.nnz := L.nnz la;
     K.epochs_per_sample := L.epochs_per_sample la;
     K.n_vertices := L.n_vertices la;
     K.move_other := move_other_of;
     K.epochs_per_negative_sample := epochs_per_negative_sample;
     K.alpha := alpha;
     K.epoch := n;
     K.gamma := L.gamma la;
     K.seed := (seed mod 2 ^ 64)%Z;
     K.params := L.params la |}.

(** Lines 266-282: the body of the epoch loop. *)
Definition optimize_layout_epoch (epochs_per_negative_sample : list Q)
    (n : Z) (s : lstate) : option lstate :=
  let args := launch_args epochs_per_negative_sample n (alpha s) in
  st ← optimize_batch_kernel args TPB_X (ks s);
  st ← match ML.callback (L.params la) with
       | Some f => on_epoch_end f (L.head_embedding la) st
       | None => Some st
       end;
  Some {| ks := st;
          alpha := ML.initial_alpha (L.params la) *
                   (1 - inject_Z n / inject_Z (L.n_epochs la));
          launches := launches s ++ [args] |}.

(** The state after the first [k] epochs. *)
Definition optimize_layout_steps (k : nat) (m : gmap nat (list Q))
    : option lstate :=
  epochs_per_negative_sample ← epochs_per_negative_sample_of;
  s ← optimize_layout_init m;
  for_loop k 0%Z (optimize_layout_epoch epochs_per_negative_sample) s.

(** Lines 237-283. *)
Definition optimize_layout (m : gmap nat (list Q)) : option lstate :=
  optimize_layout_steps (Z.to_nat (L.n_epochs la)) m.
End Driver.

(** ** The launcher *)

(** [MLCommon::Sparse::COO<T>]: the three arrays and the count. *)
Module COO.
Record t := {
  rows : list Z;
  cols : list Z;
  vals : list Q;
  nnz : Z
}.
End COO.

(** Lines 303-309. *)
Definition effective_n_epochs (m : Z) (params : UMAPParams) : Z :=
  if (ML.n_epochs params <=? 0)%Z
  then (if (m <=? 10000)%Z then 500%Z else 200%Z)
  else ML.n_epochs params.

(** The lambda of lines 317-322. *)
Definition prune_weight (max : Q) (n_epochs : Z) (input : Q) : Q :=
  if Qltb input (max / inject_Z n_epochs) then 0 else input.

(** Modelled from the spec: [MLCommon::Sparse::coo_remove_zeros] of
    [sparse/coo.h] is not part of the file.  The compaction returns a new
    edge list that keeps, in order, the entries whose weight is not zero,
    and leaves its input as it is. *)
Fixpoint remove_zeros (rows cols : list Z) (vals : list Q)
    : list (Z * Z * Q) :=
  match rows, cols, vals with
  | r :: rows', c :: cols', v :: vals' =>
      if Qeq_bool v 0 then remove_zeros rows' cols' vals'
      else (r, c, v) :: remove_zeros rows' cols' vals'
  | _, _, _ => []
  end.

Definition coo_remove_zeros (inp : COO.t) : COO.t :=
  let n := Z.to_nat (COO.nnz inp) in
  let kept :=
    remove_zeros (take n (COO.rows inp)) (take n (COO.cols inp))
                 (take n (COO.vals inp)) in
  {| COO.rows := (λ e, e.1.1) <$> kept;
     COO.cols := (λ e, e.1.2) <$> kept;
     COO.vals := (λ e, e.2) <$> kept;
     COO.nnz := Z.of_nat (length kept) |}.

Section Launcher.
Context `{Externals}.
Variable TPB_X : Z.

(** Lines 294-323: the edge list [in] after the thresholding, and the
    number of epochs. *)
Definition launcher_prune (m : Z) (inp : COO.t) (params : UMAPParams)
    : option (COO.t * Z) :=
  let nnz := COO.nnz inp in
  max ← max_element (take (Z.to_nat nnz) (COO.vals inp));
  let n_epochs := effective_n_epochs m params in
  vals ← unaryOp (COO.vals inp) (COO.vals inp) nnz (prune_weight max n_epochs);
  Some ({| COO.rows := COO.rows inp; COO.cols := COO.cols inp;
           COO.vals := vals; COO.nnz := nnz |}, n_epochs).

(** Lines 340-343: the call of [optimize_layout]. *)
Definition launcher_layout_args (m : Z) (out : COO.t)
    (epochs_per_sample : list Q) (params : UMAPParams) (n_epochs : Z)
    (embedding : devptr) : layout_args :=
  {| L.head_embedding := embedding;
     L.head_n := m;
     L.tail_embedding := embedding;
     L.tail_n := m;
     L.head := COO.rows out;
     L.tail := COO.cols out;
     L.nnz := COO.nnz out;
     L.epochs_per_sample := epochs_per_sample;
     L.n_vertices := m;
     L.gamma := ML.repulsion_strength params;
     L.params := params;
     L.n_epochs := n_epochs |}.

(** Lines 291-346.  Returns the caller's edge list [in] as the call
    leaves it, and the final state of the driver. *)
Definition launcher (m n : Z) (inp : COO.t) (params : UMAPParams)
    (embedding : devptr) (dev : gmap nat (list Q))
    : option (COO.t * lstate) :=
  '(inp', n_epochs) ← launcher_prune m inp params;
  let out := coo_remove_zeros inp' in
  epochs_per_sample ←
    make_epochs_per_sample (COO.vals out) (COO.nnz out) n_epochs
      (device_buffer (COO.nnz out));
  s ← optimize_layout TPB_X
        (launcher_layout_args m out epochs_per_sample params n_epochs
           embedding) dev;
  Some (inp', s).
End Launcher.

(** ** The kernel in binary floating point

    The kernel once more, for the properties that depend on what the
    floating-point operations return outside the rationals.  [T] is a
    binary format, [double] is binary64, and the operations are those of
    IEEE 754 with rounding to nearest, ties to even, as [SpecFloat]
    defines them.  An operand of type [T], [float] or [int] is converted
    to the type of the operation first, as C++ does. *)
Module IEEE.

(** A binary format: the precision and the bound of the exponent. *)
Record format := { prec : Z; emax : Z }.

Definition float : format := {| prec := 24; emax := 128 |}.
Definition double : format := {| prec := 53; emax := 1024 |}.

Definition add (f : format) : spec_float → spec_float → spec_float :=
  SFadd (prec f) (emax f).
Definition sub (f : format) : spec_float → spec_float → spec_float :=
  SFsub (prec f) (emax f).
Definition mul (f : format) : spec_float → spec_float → spec_float :=
  SFmul (prec f) (emax f).
Definition div (f : format) : spec_float → spec_float → spec_float :=
  SFdiv (prec f) (emax f).

(** The conversion of an [int] to the format [f]. *)
Definition of_int (f : format) (z : Z) : spec_float :=
  binary_normalize (prec f) (emax f) z 0 false.

(** The conversion of a floating value to the format [f]; from [float] to
    [double] it is exact. *)
Definition convert (f : format) (x : spec_float) : spec_float :=
  match x with
  | S754_finite s m e =>
      binary_normalize (prec f) (emax f) (cond_Zopp s (Z.pos m)) e s
  | _ => x
  end.

(** [int(x)]: toward zero; undefined on NaN and on the infinities. *)
Definition to_int (x : spec_float) : option Z :=
  match x with
  | S754_zero _ => Some 0%Z
  | S754_finite s m e =>
      Some (cond_Zopp s (if (0 <=? e)%Z then Z.pos m * 2 ^ e
                         else Z.pos m / 2 ^ (- e)))%Z
  | _ => None
  end.

(** The [double] literals [0.0], and [z.0] for an integer [z]; the [float]
    literal [z.0f], as the [double] that [clip] receives. *)
Definition zero : spec_float := S754_zero false.
Definition lit (z : Z) : spec_float := of_int double z.
Definition litf (z : Z) : spec_float := convert double (of_int float z).

(** [pow] of [<math.h>], on [double]. *)
Class Libm := {
  pow : spec_float → spec_float → spec_float
}.

(** [ML::UMAPParams], the fields the kernel reads. *)
Record UMAPParams := {
  a : spec_float;
  b : spec_float;
  n_components : Z
}.

(** [*p] *)
Definition load (m : gmap nat (list spec_float)) (p : devptr)
    : option spec_float :=
  buf ← m !! base p; lookupZ buf (off p).

(** One call [atomicAdd(p, grad * alpha)]. *)
Record step := {
  target : devptr;
  grad : spec_float;
  rate : spec_float
}.

(** The state a kernel launch works on: the embeddings, the two counter
    arrays, and the log of [atomicAdd] calls. *)
Record kstate := {
  mem : gmap nat (list spec_float);
  epoch_of_next_sample : list spec_float;
  epoch_of_next_negative_sample : list spec_float;
  adds : list step
}.

(** [atomicAdd(p, grad * alpha)] on a cell of type [T]: the product is
    taken in [double], converted to [T] and added to the cell. *)
Definition atomicAdd (T : format) (p : devptr) (grad alpha : spec_float)
    (st : kstate) : option kstate :=
  buf ← mem st !! base p;
  old ← lookupZ buf (off p);
  let v := convert T (mul double grad alpha) in
  Some {| mem := <[base p := <[Z.to_nat (off p) := add T old v]> buf]> (mem st);
          epoch_of_next_sample := epoch_of_next_sample st;
          epoch_of_next_negative_sample := epoch_of_next_negative_sample st;
          adds := adds st ++
                  [{| target := p; grad := grad; rate := alpha |}] |}.

(** Lines 96-103. *)
Definition clip (val lb ub : spec_float) : spec_float :=
  if SFltb ub val then ub
  else if SFltb val lb then lb
  else val.

Section Gradient.
Context `{Libm}.
Variable T : format.

(** Lines 50-55. *)
Definition rdist (m : gmap nat (list spec_float)) (X Y : devptr) (n : Z)
    : option spec_float :=
  for_range n
    (λ i result,
       x ← load m (ptr_add X i);
       y ← load m (ptr_add Y i);
       Some (add double result (pow (convert double (sub T x y)) (lit 2))))
    zero.

(** Lines 108-114. *)
Definition repulsive_grad (dist_squared gamma : spec_float)
    (params : UMAPParams) : spec_float :=
  let a := convert double (a params) in
  let b := convert double (b params) in
  let grad_coeff := mul double (mul double (lit 2) gamma) b in
  div double grad_coeff
    (mul double
       (add double (div double (lit 1) (lit 1000)) dist_squared)
       (add double (mul double a (pow dist_squared b)) (lit 1))).

(** Lines 119-125. *)
Definition attractive_grad (dist_squared : spec_float) (params : UMAPParams)
    : spec_float :=
  let a := convert double (a params) in
  let b := convert double (b params) in
  let grad_coeff :=
    mul double (mul double (mul double (lit (-2)) a) b)
      (pow dist_squared (sub double b (lit 1))) in
  div double grad_coeff
    (add double (mul double a (pow dist_squared b)) (lit 1)).
End Gradient.

(** The arguments of one launch of [optimize_batch_kernel]
    (lines 134-139). *)
Record kernel_args := {
  head_embedding : devptr;
  head_n : Z;
  tail_embedding : devptr;
  tail_n : Z;
  head : list Z;
  tail : list Z;
  nnz : Z;
  epochs_per_sample : list spec_float;
  n_vertices : Z;
  move_other : bool;
  epochs_per_negative_sample : list spec_float;
  alpha : spec_float;
  epoch : Z;
  gamma : spec_float;
  seed : Z;
  params : UMAPParams
}.

Section Kernel.
Context `{Externals} `{Libm}.
Variable T : format.
Variable ka : kernel_args.

Local Abbreviation nc := (n_components (params ka)).

(** Lines 169-176: one dimension of the attractive update. *)
Definition attractive_update (attractive_grad_coeff : spec_float)
    (current other : devptr) (d : Z) (st : kstate) : option kstate :=
  cd ← load (mem st) (ptr_add current d);
  od ← load (mem st) (ptr_add other d);
  let grad_d :=
    clip (mul double attractive_grad_coeff (convert double (sub T cd od)))
         (litf (-4)) (litf 4) in
  st' ← atomicAdd T (ptr_add current d) grad_d (alpha ka) st;
  if move_other ka
  then atomicAdd T (ptr_add other d) (SFopp grad_d) (alpha ka) st'
  else Some st'.

(** Lines 210-217: one dimension of the repulsive update. *)
Definition repulsive_update (repulsive_grad_coeff : spec_float)
    (current negative_sample : devptr) (d : Z) (st : kstate)
    : option kstate :=
  grad_d ←
    (if SFltb zero repulsive_grad_coeff
     then cd ← load (mem st) (ptr_add current d);
          nd ← load (mem st) (ptr_add negative_sample d);
          Some (clip (mul double repulsive_grad_coeff
                        (convert double (sub T cd nd)))
                     (litf (-4)) (litf 4))
     else Some (lit 4));
  atomicAdd T (ptr_add current d) grad_d (alpha ka) st.

(** Lines 191-218: the [p]-th negative draw of the thread of [row],
    whose edge has head vertex [j]. *)
Definition negative_draw (row j : Z) (current : devptr) (p : Z)
    (st : kstate) : option kstate :=
  if (tail_n ka =? 0)%Z then None else
  let r := philox_next (seed ka) row 0 p in
  let t := Z.rem r (tail_n ka) in
  let negative_sample := ptr_add (tail_embedding ka) (t * nc) in
  dist_squared ← rdist T (mem st) current negative_sample nc;
  let coeff :=
    if SFltb zero dist_squared
    then Some (repulsive_grad dist_squared (gamma ka) (params ka))
    else if (j =? t)%Z then None
    else Some zero in
  match coeff with
  | None => Some st
  | Some repulsive_grad_coeff =>
      for_range nc
        (repulsive_update repulsive_grad_coeff current negative_sample) st
  end.

(** [epoch_of_next_sample[row] += x] *)
Definition bump_next_sample (row : Z) (x : spec_float) (st : kstate)
    : option kstate :=
  old ← lookupZ (epoch_of_next_sample st) row;
  l ← storeZ (epoch_of_next_sample st) row (add T old x);
  Some {| mem := mem st;
          epoch_of_next_sample := l;
          epoch_of_next_negative_sample := epoch_of_next_negative_sample st;
          adds := adds st |}.

(** [epoch_of_next_negative_sample[row] += x] *)
Definition bump_next_negative_sample (row : Z) (x : spec_float)
    (st : kstate) : option kstate :=
  old ← lookupZ (epoch_of_next_negative_sample st) row;
  l ← storeZ (epoch_of_next_negative_sample st) row (add T old x);
  Some {| mem := mem st;
          epoch_of_next_sample := epoch_of_next_sample st;
          epoch_of_next_negative_sample := l;
          adds := adds st |}.

(** Lines 140-224: the thread of [row]. *)
Definition kernel_thread (row : Z) (st : kstate) : option kstate :=
  if (row <? nnz ka)%Z then
    next ← lookupZ (epoch_of_next_sample st) row;
    if SFleb next (of_int T (epoch ka)) then
      j ← lookupZ (head ka) row;
      k ← lookupZ (tail ka) row;
      let current := ptr_add (head_embedding ka) (j * nc) in
      let other := ptr_add (tail_embedding ka) (k * nc) in
      dist_squared ← rdist T (mem st) current other nc;
      let attractive_grad_coeff :=
        if SFltb zero dist_squared
        then attractive_grad dist_squared (params ka) else zero in
      st ← for_range nc
             (attractive_update attractive_grad_coeff current other) st;
      eps ← lookupZ (epochs_per_sample ka) row;
      st ← bump_next_sample row eps st;
      next_neg ← lookupZ (epoch_of_next_negative_sample st) row;
      epns ← lookupZ (epochs_per_negative_sample ka) row;
      n_neg_samples ←
        to_int (div T (sub T (of_int T (epoch ka)) next_neg) epns);
      st ← for_range n_neg_samples (negative_draw row j current) st;
      bump_next_negative_sample row (mul T (of_int T n_neg_samples) epns) st
    else Some st
  else Some st.

(** The launch [<<<grid, blk>>>]. *)
Definition optimize_batch_kernel (TPB_X : Z) (st : kstate) : option kstate :=
  for_range (ceildiv (nnz ka) TPB_X * TPB_X) kernel_thread st.
End Kernel.
End IEEE.

(** ** What the properties observe *)

(** [st'] extends the log of [st] by events that all satisfy [P]. *)
Definition adds_extend (P : devptr * Q → Prop) (st st' : kstate) : Prop :=
  ∃ new, adds st' = adds st ++ new ∧ Forall P new.

(** A value of [double] that lies in [[-4, 4]]: both comparisons hold, so
    that it is not NaN. *)
Definition within_four (g : spec_float) : Prop :=
  SFleb (IEEE.lit (-4)) g = true ∧ SFleb g (IEEE.lit 4) = true.

(** A logged call was made with the learning rate [alpha] and a factor
    that lies in [[-4, 4]] or is NaN. *)
Definition clipped_or_nan (alpha : spec_float) (ev : IEEE.step) : Prop :=
  IEEE.rate ev = alpha ∧
  (within_four (IEEE.grad ev) ∨ IEEE.grad ev = S754_nan).

(** [st'] extends the log of [st] by calls that all satisfy [P]. *)
Definition steps_extend (P : IEEE.step → Prop) (st st' : IEEE.kstate)
    : Prop :=
  ∃ new, IEEE.adds st' = IEEE.adds st ++ new ∧ Forall P new.

(** The learning rate that the driver passes to the launch of epoch [n]. *)
Definition alpha_at (la : layout_args) (n : Z) : Q :=
  if decide (n = 0%Z) then ML.initial_alpha (L.params la)
  else ML.initial_alpha (L.params la) *
       (1 - inject_Z (n - 1) / inject_Z (L.n_epochs la)).

(** The two counters of [row]. *)
Definition counters_at (st : kstate) (row : Z) : option (Q * Q) :=
  x ← lookupZ (epoch_of_next_sample st) row;
  y ← lookupZ (epoch_of_next_negative_sample st) row;
  Some (x, y).

(** Both counter arrays are the same in [st] and [st']. *)
Definition counters_same (st st' : kstate) : Prop :=
  epoch_of_next_sample st' = epoch_of_next_sample st ∧
  epoch_of_next_negative_sample st' = epoch_of_next_negative_sample st.

(** The invariant of one edge at the start of epoch [n]: its next negative
    sample is due by epoch [n], or not after its next sample. *)
Definition schedule_inv (n : Z) (c : Q * Q) : Prop :=
  c.2 <= inject_Z n ∨ c.2 <= c.1.

(** From [st] to [st'] the counters of [row] have not decreased, and the
    invariant of epoch [n] is kept. *)
Definition counters_advance (row n : Z) (st st' : kstate) : Prop :=
  ∀ c, counters_at st row = Some c → schedule_inv n c →
  ∃ c', counters_at st' row = Some c' ∧
        c.1 <= c'.1 ∧ c.2 <= c'.2 ∧ schedule_inv n c'.

(** ** A concrete environment and a small run

    [pow] is exact on integer exponents; the generator and the clock are
    simple deterministic functions. *)
Definition pow_int (x y : Q) : Q := Qpower x (Qfloor y).

Definition env0 : Externals :=
  {| pow := pow_int;
     philox_next := λ seed sub _ p, ((seed + 7 * sub + 3 * p + 1) mod 2 ^ 31)%Z;
     gettimeofday := λ n, (1500000000 + n, 250)%Z |}.

Definition params0 : UMAPParams :=
  {| ML.a := 1; ML.b := 1; ML.n_components := 2;
     ML.negative_sample_rate := 2; ML.repulsion_strength := 1;
     ML.initial_alpha := 1; ML.n_epochs := 2; ML.verbose := false;
     ML.callback := None |}.

(** Three vertices in the plane, in buffer 0. *)
Definition dev0 : gmap nat (list Q) :=
  {[ 0%nat := [0; 0; 10; 0; 0; 5] ]}.

Definition emb0 : devptr := {| base := 0; off := 0 |}.

Definition coo0 : COO.t :=
  {| COO.rows := [0; 1; 2]%Z; COO.cols := [1; 2; 0]%Z;
     COO.vals := [0.01; 0.5; 1]; COO.nnz := 3 |}.

(** The same edge list with the epoch budget of the thresholding scenario. *)
Definition params100 : UMAPParams :=
  {| ML.a := 1; ML.b := 1; ML.n_components := 2;
     ML.negative_sample_rate := 2; ML.repulsion_strength := 1;
     ML.initial_alpha := 1; ML.n_epochs := 100; ML.verbose := false;
     ML.callback := None |}.

(** One launch at epoch 1 over two edges that are both due. *)
Definition st0 : kstate :=
  {| mem := dev0; epoch_of_next_sample := [1; 1];
     epoch_of_next_negative_sample := [1 # 2; 1 # 2]; adds := [] |}.

Definition args0 : kernel_args :=
  {| K.head_embedding := emb0; K.head_n := 3; K.tail_embedding := emb0;
     K.tail_n := 3; K.head := [0; 1]%Z; K.tail := [1; 2]%Z; K.nnz := 2;
     K.epochs_per_sample := [1; 1]; K.n_vertices := 3; K.move_other := true;
     K.epochs_per_negative_sample := [1 # 2; 1 # 2]; K.alpha := 1;
     K.epoch := 1; K.gamma := 1; K.seed := 0; K.params := params0 |}.

(** Vertices 0 and 1 at the same place. *)
Definition dev1 : gmap nat (list Q) :=
  {[ 0%nat := [0; 0; 0; 0; 5; 5] ]}.

Definition st1 : kstate :=
  {| mem := dev1; epoch_of_next_sample := [1; 1];
     epoch_of_next_negative_sample := [1 # 2; 1 # 2]; adds := [] |}.

(** A generator whose [int] is negative. *)
Definition env_neg : Externals :=
  {| pow := pow_int;
     philox_next := λ _ _ _ _, (-1)%Z;
     gettimeofday := λ n, (1500000000 + n, 250)%Z |}.

(** The driver on the two edges that the launcher keeps of [coo0]. *)
Definition la0 : layout_args :=
  {| L.head_embedding := emb0; L.head_n := 3; L.tail_embedding := emb0;
     L.tail_n := 3; L.head := [1; 2]%Z; L.tail := [2; 0]%Z; L.nnz := 2;
     L.epochs_per_sample := [2; 1]; L.n_vertices := 3; L.gamma := 1;
     L.params := params0; L.n_epochs := 2 |}.

(** ** A concrete run in binary floating point

    [pow] for an exponent that is an integer, by repeated multiplication:
    [pow(x, 0)] is 1 and [pow(x, 1)] is [x] for every [x], as in C. *)
Definition pow_iter (x y : spec_float) : spec_float :=
  match IEEE.to_int y with
  | Some n =>
      let p := Nat.iter (Z.to_nat (Z.abs n)) (IEEE.mul IEEE.double x)
                 (IEEE.lit 1) in
      if (0 <=? n)%Z then p else IEEE.div IEEE.double (IEEE.lit 1) p
  | None => S754_nan
  end.

Definition libm0 : IEEE.Libm := {| IEEE.pow := pow_iter |}.

(** The curve [a = b = 1] on a line. *)
Definition params_line : IEEE.UMAPParams :=
  {| IEEE.a := IEEE.of_int IEEE.float 1; IEEE.b := IEEE.of_int IEEE.float 1;
     IEEE.n_components := 1 |}.

(** One launch at epoch 1 over the one edge [(0, 1)], which is due, in fit
    mode and with [alpha = 1]. *)
Definition args_line : IEEE.kernel_args :=
  {| IEEE.head_embedding := emb0; IEEE.head_n := 2;
     IEEE.tail_embedding := emb0; IEEE.tail_n := 2;
     IEEE.head := [0]%Z; IEEE.tail := [1]%Z; IEEE.nnz := 1;
     IEEE.epochs_per_sample := [IEEE.of_int IEEE.float 1];
     IEEE.n_vertices := 2; IEEE.move_other := true;
     IEEE.epochs_per_negative_sample := [IEEE.of_int IEEE.float 1];
     IEEE.alpha := IEEE.lit 1; IEEE.epoch := 1; IEEE.gamma := IEEE.lit 1;
     IEEE.seed := 0; IEEE.params := params_line |}.

(** Two vertices of type [float], at 0 and at 10. *)
Definition st_line : IEEE.kstate :=
  {| IEEE.mem := {[ 0%nat := [IEEE.zero; IEEE.of_int IEEE.float 10] ]};
     IEEE.epoch_of_next_sample := [IEEE.of_int IEEE.float 1];
     IEEE.epoch_of_next_negative_sample := [IEEE.of_int IEEE.float 1];
     IEEE.adds := [] |}.

(** The largest finite [float], [(2^24 - 1) * 2^104]. *)
Definition FLT_MAX : spec_float := S754_finite false 16777215 104.

(** Two vertices of type [float], at [FLT_MAX] and at [-FLT_MAX]. *)
Definition st_far : IEEE.kstate :=
  {| IEEE.mem := {[ 0%nat := [FLT_MAX; SFopp FLT_MAX] ]};
     IEEE.epoch_of_next_sample := [IEEE.of_int IEEE.float 1];
     IEEE.epoch_of_next_negative_sample := [IEEE.of_int IEEE.float 1];
     IEEE.adds := [] |}.

(** ** More of what the properties observe *)

(** The buffers that a launch may write: that of the head embedding and,
    with [move_other], that of the tail embedding. *)
Definition may_write (ka : kernel_args) (b : nat) : Prop :=
  b = base (K.head_embedding ka) ∨
  (K.move_other ka = true ∧ b = base (K.tail_embedding ka)).

(** From [st] to [st']: each call added to the log targets a buffer that
    the launch may write, the other buffers are as they were, and no
    buffer has changed its length. *)
Definition launch_frame (ka : kernel_args) (st st' : kstate) : Prop :=
  (∃ new, adds st' = adds st ++ new ∧
          Forall (λ ev, may_write ka (base ev.1)) new) ∧
  (∀ b, ¬ may_write ka b → mem st' !! b = mem st !! b) ∧
  (∀ b, length <$> mem st' !! b = length <$> mem st !! b).

(** The launch of [args0] at epoch 0, where no edge is due. *)
Definition args_idle : kernel_args :=
  {| K.head_embedding := emb0; K.head_n := 3; K.tail_embedding := emb0;
     K.tail_n := 3; K.head := [0; 1]%Z; K.tail := [1; 2]%Z; K.nnz := 2;
     K.epochs_per_sample := [1; 1]; K.n_vertices := 3; K.move_other := true;
     K.epochs_per_negative_sample := [1 # 2; 1 # 2]; K.alpha := 1;
     K.epoch := 0; K.gamma := 1; K.seed := 0; K.params := params0 |}.

(** The driver of [la0] with no epoch to run. *)
Definition la_none : layout_args :=
  {| L.head_embedding := emb0; L.head_n := 3; L.tail_embedding := emb0;
     L.tail_n := 3; L.head := [1; 2]%Z; L.tail := [2; 0]%Z; L.nnz := 2;
     L.epochs_per_sample := [2; 1]; L.n_vertices := 3; L.gamma := 1;
     L.params := params0; L.n_epochs := 0 |}.

(** A budget of one epoch. *)
Definition params1 : UMAPParams :=
  {| ML.a := 1; ML.b := 1; ML.n_components := 2;
     ML.negative_sample_rate := 2; ML.repulsion_strength := 1;
     ML.initial_alpha := 1; ML.n_epochs := 1; ML.verbose := false;
     ML.callback := None |}.

(** A launch in fit mode whose first edge has head vertex 1, the vertex
    that the first draw of that edge picks. *)
Definition args_self : kernel_args :=
  {| K.head_embedding := emb0; K.head_n := 3; K.tail_embedding := emb0;
     K.tail_n := 3; K.head := [1; 2]%Z; K.tail := [2; 0]%Z; K.nnz := 2;
     K.epochs_per_sample := [1; 1]; K.n_vertices := 3; K.move_other := true;
     K.epochs_per_negative_sample := [1 # 2; 1 # 2]; K.alpha := 1;
     K.epoch := 1; K.gamma := 1; K.seed := 0; K.params := params0 |}.

(** * Properties *)

(** ** Numbers and loops *)

Lemma Qltb_lt (x y : Q) : Qltb x y = true ↔ x < y.
Proof.
  unfold Qltb. rewrite negb_true_iff. split.
  - intros Hb. apply Qnot_le_lt. intros Hle.
    apply Qle_bool_iff in Hle. congruence.
  - intros Hlt. destruct (Qle_bool y x) eqn:E; [|done].
    apply Qle_bool_iff in E. lra.
Qed.

Lemma Qltb_ge (x y : Q) : Qltb x y = false ↔ y <= x.
Proof.
  unfold Qltb. rewrite negb_false_iff. apply Qle_bool_iff.
Qed.

Lemma clip_bounds (val lb ub : Q) : lb <= ub → lb <= clip val lb ub <= ub.
Proof.
  intros Hb. unfold clip.
  destruct (Qltb ub val) eqn:E1; [lra|].
  destruct (Qltb val lb) eqn:E2; [lra|].
  apply Qltb_ge in E1, E2. lra.
Qed.

Lemma for_loop_rel {St} (R : St → St → Prop) (body : Z → St → option St) :
  (∀ s, R s s) →
  (∀ s1 s2 s3, R s1 s2 → R s2 s3 → R s1 s3) →
  (∀ i s s', body i s = Some s' → R s s') →
  ∀ count i s s', for_loop count i body s = Some s' → R s s'.
Proof.
  intros Hrefl Htrans Hbody count.
  induction count as [|c IH]; intros i s s' Hrun; simpl in Hrun.
  - by simplify_eq.
  - destruct (body i s) as [s1|] eqn:E; simpl in Hrun; [|done].
    eapply Htrans; [by eapply Hbody | by eapply IH].
Qed.

Lemma for_range_rel {St} (R : St → St → Prop) (body : Z → St → option St) :
  (∀ s, R s s) →
  (∀ s1 s2 s3, R s1 s2 → R s2 s3 → R s1 s3) →
  (∀ i s s', body i s = Some s' → R s s') →
  ∀ n s s', for_range n body s = Some s' → R s s'.
Proof. intros ??? n. apply for_loop_rel; auto. Qed.

(** ** The log of [atomicAdd] calls *)

Lemma adds_extend_refl P st : adds_extend P st st.
Proof. exists []. by rewrite app_nil_r. Qed.

Lemma adds_extend_trans P s1 s2 s3 :
  adds_extend P s1 s2 → adds_extend P s2 s3 → adds_extend P s1 s3.
Proof.
  intros (n1 & E1 & F1) (n2 & E2 & F2). exists (n1 ++ n2). split.
  - by rewrite E2, E1, app_assoc.
  - by apply Forall_app.
Qed.

Lemma atomicAdd_adds p v st st' :
  atomicAdd p v st = Some st' → adds st' = adds st ++ [(p, v)].
Proof.
  unfold atomicAdd. intros Hrun.
  destruct (mem st !! base p) as [buf|]; simpl in Hrun; [|done].
  destruct (lookupZ buf (off p)); simpl in Hrun; [|done].
  by simplify_eq.
Qed.

Lemma atomicAdd_extend (P : devptr * Q → Prop) p v st st' :
  P (p, v) → atomicAdd p v st = Some st' → adds_extend P st st'.
Proof.
  intros HP Hrun. exists [(p, v)]. split; [by eapply atomicAdd_adds|].
  by constructor.
Qed.

Section KernelLog.
Context `{Externals}.
Variable ka : kernel_args.

Lemma bump_next_sample_adds row x st st' :
  bump_next_sample row x st = Some st' →
  adds st' = adds st ∧ mem st' = mem st ∧
  epoch_of_next_negative_sample st' = epoch_of_next_negative_sample st.
Proof.
  unfold bump_next_sample. intros Hrun.
  destruct (lookupZ _ _); simpl in Hrun; [|done].
  destruct (storeZ _ _ _); simpl in Hrun; [|done].
  by simplify_eq.
Qed.

Lemma bump_next_negative_sample_adds row x st st' :
  bump_next_negative_sample row x st = Some st' →
  adds st' = adds st ∧ mem st' = mem st ∧
  epoch_of_next_sample st' = epoch_of_next_sample st.
Proof.
  unfold bump_next_negative_sample. intros Hrun.
  destruct (lookupZ _ _); simpl in Hrun; [|done].
  destruct (storeZ _ _ _); simpl in Hrun; [|done].
  by simplify_eq.
Qed.

End KernelLog.

(** ** The gradient steps in binary floating point *)

Lemma SFcompare_antisym x y :
  SFcompare y x = option_map CompOpp (SFcompare x y).
Proof.
  destruct x as [[]|[]| |[] m1 e1], y as [[]|[]| |[] m2 e2]; simpl; try done.
  - rewrite (Z.compare_antisym e1 e2).
    destruct (e1 ?= e2)%Z; simpl; try done.
    change (Pos.compare_cont Eq) with Pos.compare.
    rewrite (Pos.compare_antisym m1 m2).
    by destruct (m1 ?= m2)%positive.
  - rewrite (Z.compare_antisym e1 e2).
    destruct (e1 ?= e2)%Z; simpl; try done.
    change (Pos.compare_cont Eq) with Pos.compare.
    by rewrite (Pos.compare_antisym m1 m2).
Qed.

Lemma SFcompare_opp x y : SFcompare (SFopp x) (SFopp y) = SFcompare y x.
Proof.
  destruct x as [[]|[]| |[] m1 e1], y as [[]|[]| |[] m2 e2]; simpl; try done.
  all: rewrite (Z.compare_antisym e1 e2).
  all: destruct (e1 ?= e2)%Z; simpl; try done.
  all: change (Pos.compare_cont Eq) with Pos.compare.
  all: rewrite (Pos.compare_antisym m1 m2).
  all: by destruct (m1 ?= m2)%positive.
Qed.

Lemma SFcompare_is_Some x y :
  x ≠ S754_nan → y ≠ S754_nan → ∃ c, SFcompare x y = Some c.
Proof.
  intros Hx Hy.
  destruct x as [[]|[]| |[] m1 e1], y as [[]|[]| |[] m2 e2];
    simpl; try done; eauto.
  all: destruct (e1 ?= e2)%Z; eauto.
Qed.

Lemma SFcompare_refl x : x ≠ S754_nan → SFcompare x x = Some Eq.
Proof.
  intros Hx. destruct x as [[]|[]| |[] m e]; simpl; try done.
  all: rewrite Z.compare_refl.
  all: change (Pos.compare_cont Eq) with Pos.compare.
  all: by rewrite Pos.compare_refl.
Qed.

Lemma SFleb_refl x : x ≠ S754_nan → SFleb x x = true.
Proof. intros Hx. unfold SFleb. by rewrite SFcompare_refl. Qed.

Lemma SFltb_false_leb x y :
  x ≠ S754_nan → y ≠ S754_nan → SFltb x y = false → SFleb y x = true.
Proof.
  intros Hx Hy. unfold SFltb, SFleb. rewrite (SFcompare_antisym x y).
  destruct (SFcompare_is_Some x y Hx Hy) as [c ->]. by destruct c.
Qed.

(** [clip] returns a NaN as it is: both of its tests fail. *)
Lemma clip_nan lb ub : IEEE.clip S754_nan lb ub = S754_nan.
Proof. unfold IEEE.clip. by destruct ub, lb. Qed.

(** On a value that is not NaN, [clip] returns a value between the
    bounds. *)
Lemma clip_between val lb ub :
  val ≠ S754_nan → lb ≠ S754_nan → ub ≠ S754_nan → SFleb lb ub = true →
  SFleb lb (IEEE.clip val lb ub) = true ∧
  SFleb (IEEE.clip val lb ub) ub = true.
Proof.
  intros Hv Hl Hu Hlu. unfold IEEE.clip.
  destruct (SFltb ub val) eqn:E1.
  { split; [done|by apply SFleb_refl]. }
  destruct (SFltb val lb) eqn:E2.
  { split; [by apply SFleb_refl|done]. }
  split; by apply SFltb_false_leb.
Qed.

Lemma litf_four : IEEE.litf 4 = IEEE.lit 4 ∧ IEEE.litf (-4) = IEEE.lit (-4).
Proof. split; vm_compute; reflexivity. Qed.

Lemma lit_four_opp :
  IEEE.lit (-4) = SFopp (IEEE.lit 4) ∧ IEEE.lit 4 = SFopp (IEEE.lit (-4)).
Proof. split; vm_compute; reflexivity. Qed.

Lemma within_four_four : within_four (IEEE.lit 4).
Proof. split; vm_compute; reflexivity. Qed.

Lemma within_four_opp g : within_four g → within_four (SFopp g).
Proof.
  intros [H1 H2]. unfold within_four, SFleb in *.
  destruct lit_four_opp as [E1 E2].
  rewrite E1 at 1. rewrite SFcompare_opp.
  rewrite E2 at 2. rewrite SFcompare_opp. done.
Qed.

Lemma clip_within_four p :
  let g := IEEE.clip p (IEEE.litf (-4)) (IEEE.litf 4) in
  (within_four g ∨ g = S754_nan) ∧
  (within_four (SFopp g) ∨ SFopp g = S754_nan).
Proof.
  simpl. destruct litf_four as [-> ->].
  assert (p = S754_nan ∨ p ≠ S754_nan) as [->|Hp]
    by (destruct p; auto).
  - rewrite clip_nan. split; by right.
  - assert (within_four (IEEE.clip p (IEEE.lit (-4)) (IEEE.lit 4))) as Hw.
    { apply clip_between; [done| | |]; by vm_compute. }
    split; left; [done|by apply within_four_opp].
Qed.

Lemma steps_extend_refl P st : steps_extend P st st.
Proof. exists []. by rewrite app_nil_r. Qed.

Lemma steps_extend_trans P s1 s2 s3 :
  steps_extend P s1 s2 → steps_extend P s2 s3 → steps_extend P s1 s3.
Proof.
  intros (n1 & E1 & F1) (n2 & E2 & F2). exists (n1 ++ n2). split.
  - by rewrite E2, E1, app_assoc.
  - by apply Forall_app.
Qed.

Lemma steps_extend_same P st st' :
  IEEE.adds st' = IEEE.adds st → steps_extend P st st'.
Proof. intros E. exists []. by rewrite E, app_nil_r. Qed.

Lemma atomicAdd_step (P : IEEE.step → Prop) T p grad alpha st st' :
  P {| IEEE.target := p; IEEE.grad := grad; IEEE.rate := alpha |} →
  IEEE.atomicAdd T p grad alpha st = Some st' → steps_extend P st st'.
Proof.
  unfold IEEE.atomicAdd. intros HP Hrun.
  destruct (IEEE.mem st !! base p) as [buf|]; simpl in Hrun; [|done].
  destruct (lookupZ buf (off p)); simpl in Hrun; [|done].
  simplify_eq. eexists. split; [done|]. by constructor.
Qed.

Section KernelSteps.
Context `{Externals} `{IEEE.Libm}.
Variable T : IEEE.format.
Variable ka : IEEE.kernel_args.

Lemma attractive_update_steps coeff current other d st st' :
  IEEE.attractive_update T ka coeff current other d st = Some st' →
  steps_extend (clipped_or_nan (IEEE.alpha ka)) st st'.
Proof.
  unfold IEEE.attractive_update. intros Hrun.
  destruct (IEEE.load (IEEE.mem st) (ptr_add current d)) as [cd|];
    simpl in Hrun; [|done].
  destruct (IEEE.load (IEEE.mem st) (ptr_add other d)) as [od|];
    simpl in Hrun; [|done].
  match type of Hrun with
  | context [IEEE.clip ?p _ _] =>
      destruct (clip_within_four p) as [Hg Hopp]
  end.
  simpl in Hg, Hopp.
  match type of Hrun with (mbind _ ?e = _) =>
    destruct e as [st1|] eqn:E1 end; simpl in Hrun; [|done].
  assert (steps_extend (clipped_or_nan (IEEE.alpha ka)) st st1) as H1.
  { eapply atomicAdd_step; [|exact E1]. by split. }
  destruct (IEEE.move_other ka); [|by simplify_eq].
  eapply steps_extend_trans; [done|].
  eapply atomicAdd_step; [|exact Hrun]. by split.
Qed.

Lemma repulsive_update_steps coeff current negative_sample d st st' :
  IEEE.repulsive_update T ka coeff current negative_sample d st = Some st' →
  steps_extend (clipped_or_nan (IEEE.alpha ka)) st st'.
Proof.
  unfold IEEE.repulsive_update. intros Hrun.
  destruct (SFltb IEEE.zero coeff).
  - destruct (IEEE.load (IEEE.mem st) (ptr_add current d)) as [cd|];
      simpl in Hrun; [|done].
    destruct (IEEE.load (IEEE.mem st) (ptr_add negative_sample d)) as [nd|];
      simpl in Hrun; [|done].
    eapply atomicAdd_step; [|exact Hrun].
    split; [done|]. apply clip_within_four.
  - simpl in Hrun. eapply atomicAdd_step; [|exact Hrun].
    split; [done|]. left. apply within_four_four.
Qed.

Lemma negative_draw_steps row j current p st st' :
  IEEE.negative_draw T ka row j current p st = Some st' →
  steps_extend (clipped_or_nan (IEEE.alpha ka)) st st'.
Proof.
  unfold IEEE.negative_draw. intros Hrun.
  destruct (IEEE.tail_n ka =? 0)%Z; [done|].
  match type of Hrun with (mbind _ ?e = _) => destruct e as [d2|] end;
    simpl in Hrun; [|done].
  destruct (SFltb IEEE.zero d2).
  - eapply for_range_rel;
      [apply steps_extend_refl|apply steps_extend_trans| |done].
    intros ???. apply repulsive_update_steps.
  - destruct (j =? _)%Z.
    + simplify_eq. apply steps_extend_refl.
    + eapply for_range_rel;
        [apply steps_extend_refl|apply steps_extend_trans| |done].
      intros ???. apply repulsive_update_steps.
Qed.

Lemma kernel_thread_steps row st st' :
  IEEE.kernel_thread T ka row st = Some st' →
  steps_extend (clipped_or_nan (IEEE.alpha ka)) st st'.
Proof.
  unfold IEEE.kernel_thread. intros Hrun.
  destruct (row <? IEEE.nnz ka)%Z; [|simplify_eq; apply steps_extend_refl].
  destruct (lookupZ (IEEE.epoch_of_next_sample st) row) as [next|];
    simpl in Hrun; [|done].
  destruct (SFleb next _); [|simplify_eq; apply steps_extend_refl].
  destruct (lookupZ (IEEE.head ka) row) as [j|]; simpl in Hrun; [|done].
  destruct (lookupZ (IEEE.tail ka) row) as [k|]; simpl in Hrun; [|done].
  destruct (IEEE.rdist _ _ _ _ _) as [d2|]; simpl in Hrun; [|done].
  destruct (for_range _ _ st) as [st1|] eqn:E1; simpl in Hrun; [|done].
  destruct (lookupZ (IEEE.epochs_per_sample ka) row) as [eps|];
    simpl in Hrun; [|done].
  destruct (IEEE.bump_next_sample T row eps st1) as [st2|] eqn:E2;
    simpl in Hrun; [|done].
  destruct (lookupZ (IEEE.epoch_of_next_negative_sample st2) row) as [nn|];
    simpl in Hrun; [|done].
  destruct (lookupZ (IEEE.epochs_per_negative_sample ka) row) as [epns|];
    simpl in Hrun; [|done].
  destruct (IEEE.to_int _) as [n_neg|]; simpl in Hrun; [|done].
  destruct (for_range _ _ st2) as [st3|] eqn:E3; simpl in Hrun; [|done].
  assert (IEEE.adds st2 = IEEE.adds st1) as Ha2.
  { unfold IEEE.bump_next_sample in E2.
    destruct (lookupZ _ _); simpl in E2; [|done].
    destruct (storeZ _ _ _); simpl in E2; [|done]. by simplify_eq. }
  assert (IEEE.adds st' = IEEE.adds st3) as Ha3.
  { unfold IEEE.bump_next_negative_sample in Hrun.
    destruct (lookupZ _ _); simpl in Hrun; [|done].
    destruct (storeZ _ _ _); simpl in Hrun; [|done]. by simplify_eq. }
  eapply steps_extend_trans; [|by apply steps_extend_same].
  eapply steps_extend_trans.
  { eapply for_range_rel;
      [apply steps_extend_refl|apply steps_extend_trans| |exact E1].
    intros ???. apply attractive_update_steps. }
  eapply steps_extend_trans; [by apply steps_extend_same|].
  eapply for_range_rel;
    [apply steps_extend_refl|apply steps_extend_trans| |exact E3].
  intros ???. apply negative_draw_steps.
Qed.

(** C6, as the code has it: every call [atomicAdd(p, grad * alpha)] that
    one launch of the kernel makes, in the attractive stage (on the head
    row and, when [move_other], on the tail row) and in the
    negative-sampling stage (clipped or the constant 4.0), is made with
    the learning rate of the launch and a per-dimension contribution
    [grad] that lies within [[-4, 4]] or is NaN. *)
Theorem kernel_steps_clipped_or_nan TPB_X st st' :
  IEEE.optimize_batch_kernel T ka TPB_X st = Some st' →
  ∃ new, IEEE.adds st' = IEEE.adds st ++ new ∧
         Forall (λ ev, IEEE.rate ev = IEEE.alpha ka ∧
                       (within_four (IEEE.grad ev) ∨
                        IEEE.grad ev = S754_nan)) new.
Proof.
  unfold IEEE.optimize_batch_kernel. intros Hrun.
  eapply (for_range_rel (steps_extend (clipped_or_nan (IEEE.alpha ka))));
    [apply steps_extend_refl|apply steps_extend_trans| |exact Hrun].
  intros ???. apply kernel_thread_steps.
Qed.
End KernelSteps.

(** ** Memory effect of [atomicAdd] *)

Lemma lookupZ_Some {A} (l : list A) i x :
  lookupZ l i = Some x ↔ (0 ≤ i)%Z ∧ l !! Z.to_nat i = Some x.
Proof.
  unfold lookupZ. destruct (0 <=? i)%Z eqn:E.
  - apply Z.leb_le in E. tauto.
  - apply Z.leb_gt in E. split; [done|]. intros [? _]. lia.
Qed.

Lemma load_atomicAdd p v st st' q :
  atomicAdd p v st = Some st' →
  load (mem st') q =
    if decide (q = p) then (λ x, x + v) <$> load (mem st) q
    else load (mem st) q.
Proof.
  unfold atomicAdd. intros Hrun.
  destruct (mem st !! base p) as [buf|] eqn:Eb; simpl in Hrun; [|done].
  destruct (lookupZ buf (off p)) as [old|] eqn:Eo; simpl in Hrun; [|done].
  simplify_eq. simpl. unfold load.
  apply lookupZ_Some in Eo as [Hp Ho].
  destruct (decide (q = p)) as [->|Hne].
  - rewrite lookup_insert_eq, Eb. simpl.
    unfold lookupZ. destruct (0 <=? off p)%Z eqn:E; [|apply Z.leb_gt in E; lia].
    rewrite list_lookup_insert_eq by (by eapply lookup_lt_Some).
    by rewrite Ho.
  - destruct (decide (base p = base q)) as [Eq|Nq].
    + rewrite <-Eq, lookup_insert_eq, Eb. simpl.
      unfold lookupZ. destruct (0 <=? off q)%Z eqn:E; [|done].
      apply Z.leb_le in E.
      rewrite list_lookup_insert_ne; [done|].
      intros Hoff. apply Hne. destruct p, q; simpl in *. f_equal; [done|lia].
    + by rewrite lookup_insert_ne.
Qed.

Lemma atomicAdd_counters p v st st' :
  atomicAdd p v st = Some st' →
  epoch_of_next_sample st' = epoch_of_next_sample st ∧
  epoch_of_next_negative_sample st' = epoch_of_next_negative_sample st.
Proof.
  unfold atomicAdd. intros Hrun.
  destruct (mem st !! base p) as [buf|]; simpl in Hrun; [|done].
  destruct (lookupZ buf (off p)); simpl in Hrun; [|done].
  by simplify_eq.
Qed.

Lemma atomicAdd_is_Some p v st :
  is_Some (load (mem st) p) → is_Some (atomicAdd p v st).
Proof.
  unfold load, atomicAdd. intros [x Hx].
  destruct (mem st !! base p) as [buf|]; simpl in *; [|done].
  rewrite Hx. simpl. eauto.
Qed.

Lemma Qopp_mult_l (g x : Q) : (- g * x = - (g * x))%Q.
Proof.
  unfold Qmult, Qopp. simpl. f_equal. lia.
Qed.

Section Attractive.
Context `{Externals}.
Variable ka : kernel_args.

(** The calls of one dimension of the attractive update. *)
Lemma attractive_update_adds coeff current other d st st' :
  attractive_update ka coeff current other d st = Some st' →
  ∃ cd od,
    load (mem st) (ptr_add current d) = Some cd ∧
    load (mem st) (ptr_add other d) = Some od ∧
    let g := clip (coeff * (cd - od)) (-4) 4 in
    ((K.move_other ka = true ∧
      ∃ st1, atomicAdd (ptr_add current d) (g * K.alpha ka) st = Some st1 ∧
             atomicAdd (ptr_add other d) (- (g * K.alpha ka)) st1 = Some st')
     ∨ (K.move_other ka = false ∧
        atomicAdd (ptr_add current d) (g * K.alpha ka) st = Some st')).
Proof.
  unfold attractive_update. intros Hrun.
  destruct (load (mem st) (ptr_add current d)) as [cd|]; simpl in Hrun; [|done].
  destruct (load (mem st) (ptr_add other d)) as [od|]; simpl in Hrun; [|done].
  exists cd, od. split; [done|]. split; [done|]. simpl.
  destruct (atomicAdd (ptr_add current d) _ st) as [st1|] eqn:E1;
    simpl in Hrun; [|done].
  destruct (K.move_other ka).
  - left. split; [done|]. exists st1. split; [done|].
    by rewrite <-Qopp_mult_l.
  - right. split; [done|]. by simplify_eq.
Qed.

(** C7: one dimension of an attractive update.  With [move_other] (fit
    mode) the kernel adds [g * alpha] to the head row and then exactly
    [- (g * alpha)] to the tail row, at the same dimension.  Without it
    (transform mode) the only call targets the head row, and every other
    cell of the device memory, the tail row's included, keeps its value. *)
Theorem attractive_update_antisymmetric coeff current other d st st' :
  attractive_update ka coeff current other d st = Some st' →
  ∃ g,
    (K.move_other ka = true →
     adds st' = adds st ++ [(ptr_add current d, g * K.alpha ka);
                            (ptr_add other d, - (g * K.alpha ka))]) ∧
    (K.move_other ka = false →
     adds st' = adds st ++ [(ptr_add current d, g * K.alpha ka)] ∧
     ∀ q, q ≠ ptr_add current d → load (mem st') q = load (mem st) q).
Proof.
  intros Hrun.
  apply attractive_update_adds in Hrun as (cd & od & _ & _ & Hcases).
  simpl in Hcases. exists (clip (coeff * (cd - od)) (-4) 4).
  destruct Hcases as [(Hm & st1 & E1 & E2)|(Hm & E1)].
  - split; [|congruence]. intros _.
    apply atomicAdd_adds in E1, E2. rewrite E2, E1.
    by rewrite <-app_assoc.
  - split; [congruence|]. intros _. split; [by apply atomicAdd_adds|].
    intros q Hq. rewrite (load_atomicAdd _ _ _ _ q E1).
    by rewrite decide_False.
Qed.
End Attractive.

(** ** The degenerate negative draw *)

Lemma ptr_add_inj_iff p i q :
  q = ptr_add p i ↔ base q = base p ∧ off q = (off p + i)%Z.
Proof.
  destruct p, q; unfold ptr_add; simpl. split.
  - by intros [= -> ->].
  - by intros [-> ->].
Qed.

(** Adding [v] to [count] consecutive cells from [current + i]. *)
Lemma add_row_loop v current count : ∀ i st,
  (∀ d, (i ≤ d < i + Z.of_nat count)%Z →
        is_Some (load (mem st) (ptr_add current d))) →
  ∃ st',
    for_loop count i (λ d, atomicAdd (ptr_add current d) v) st = Some st' ∧
    adds st' =
      adds st ++ ((λ d, (ptr_add current d, v)) <$> seqZ i (Z.of_nat count)) ∧
    (∀ q, load (mem st') q =
          if decide (base q = base current ∧
                     (off current + i ≤ off q
                      < off current + i + Z.of_nat count)%Z)
          then (λ x, x + v) <$> load (mem st) q
          else load (mem st) q) ∧
    epoch_of_next_sample st' = epoch_of_next_sample st ∧
    epoch_of_next_negative_sample st' = epoch_of_next_negative_sample st.
Proof.
  induction count as [|c IH]; intros i st Hloads.
  - exists st. simpl. split; [done|]. split; [by rewrite app_nil_r|].
    split; [|done]. intros q. rewrite decide_False; [done|lia].
  - destruct (atomicAdd_is_Some (ptr_add current i) v st) as [st1 E1].
    { apply Hloads. lia. }
    destruct (IH (i + 1)%Z st1) as (st' & Hrun & Hadds & Hmem & Hc1 & Hc2).
    { intros d Hd. rewrite (load_atomicAdd _ _ _ _ _ E1).
      destruct (Hloads d ltac:(lia)) as [x Hx]. rewrite Hx.
      case_decide; simpl; eauto. }
    exists st'. simpl. rewrite E1. simpl. split; [done|].
    pose proof (atomicAdd_counters _ _ _ _ E1) as [Hd1 Hd2].
    split; [|split; [|split; congruence]].
    + rewrite Hadds, (atomicAdd_adds _ _ _ _ E1), <-app_assoc. f_equal.
      rewrite (seqZ_cons i) by lia. rewrite fmap_cons.
      replace (Z.succ i) with (i + 1)%Z by lia.
      by replace (Z.pred (Z.of_nat (S c))) with (Z.of_nat c) by lia.
    + intros q. rewrite Hmem, (load_atomicAdd _ _ _ _ q E1).
      pose proof (ptr_add_inj_iff current i q) as Hq.
      destruct (decide (q = ptr_add current i)) as [Eq|Nq].
      * apply Hq in Eq as [Eb Eo].
        rewrite decide_False by lia.
        by rewrite decide_True by (split; [done|lia]).
      * destruct (decide (base q = base current ∧
                          (off current + (i + 1) ≤ off q
                           < off current + (i + 1) + Z.of_nat c)%Z))
          as [Hin|Hout].
        -- by rewrite decide_True by (split; [tauto|lia]).
        -- rewrite decide_False; [done|]. intros [Eb Hr].
           destruct (decide (off q = off current + i)%Z) as [Eo|No].
           ++ apply Nq, Hq. done.
           ++ apply Hout. split; [done|lia].
Qed.

Section Loads.
Context `{Externals}.

(** A squared distance that is defined has read both rows. *)
Lemma rdist_loop_loads m X Y count : ∀ i acc r,
  for_loop count i
    (λ i result,
       x ← load m (ptr_add X i); y ← load m (ptr_add Y i);
       Some (result + pow (x - y) 2)) acc = Some r →
  ∀ d, (i ≤ d < i + Z.of_nat count)%Z →
       is_Some (load m (ptr_add X d)) ∧ is_Some (load m (ptr_add Y d)).
Proof.
  induction count as [|c IH]; intros i acc r Hrun d Hd; [lia|].
  simpl in Hrun.
  destruct (load m (ptr_add X i)) as [x|] eqn:Ex; simpl in Hrun; [|done].
  destruct (load m (ptr_add Y i)) as [y|] eqn:Ey; simpl in Hrun; [|done].
  destruct (decide (d = i)) as [->|Hne].
  - by rewrite Ex, Ey.
  - eapply IH; [done|lia].
Qed.

Lemma rdist_loads m X Y n r d :
  rdist m X Y n = Some r → (0 ≤ d < n)%Z →
  is_Some (load m (ptr_add X d)) ∧ is_Some (load m (ptr_add Y d)).
Proof.
  unfold rdist, for_range. intros Hrun Hd.
  eapply rdist_loop_loads; [done|lia].
Qed.
End Loads.

Section Degenerate.
Context `{Externals}.
Variable ka : kernel_args.

Local Abbreviation nc := (ML.n_components (K.params ka)).

(** C5: a negative draw whose squared distance is 0.  When the candidate
    is the edge's own head vertex the draw leaves the state as it is.
    Otherwise the draw returns a state: [4 * alpha] has been added to each
    of the [n_components] cells of the current row, and to nothing else.
    Neither case fails. *)
Theorem negative_draw_degenerate row j current p st d2 :
  let t := negative_candidate ka row p in
  K.tail_n ka ≠ 0%Z →
  rdist (mem st) current (ptr_add (K.tail_embedding ka) (t * nc)) nc
    = Some d2 →
  d2 == 0 →
  (j = t → negative_draw ka row j current p st = Some st) ∧
  (j ≠ t →
   ∃ st',
     negative_draw ka row j current p st = Some st' ∧
     adds st' =
       adds st ++ ((λ d, (ptr_add current d, 4 * K.alpha ka)) <$> seqZ 0 nc) ∧
     (∀ q, load (mem st') q =
           if decide (base q = base current ∧
                      (off current ≤ off q < off current + nc)%Z)
           then (λ x, x + 4 * K.alpha ka) <$> load (mem st) q
           else load (mem st) q) ∧
     epoch_of_next_sample st' = epoch_of_next_sample st ∧
     epoch_of_next_negative_sample st' = epoch_of_next_negative_sample st).
Proof.
  intros t Hn Hd Hz. unfold negative_draw. fold t.
  destruct (K.tail_n ka =? 0)%Z eqn:En; [apply Z.eqb_eq in En; done|].
  rewrite Hd. simpl.
  assert (Qltb 0 d2 = false) as -> by (apply Qltb_ge; lra).
  split.
  - intros ->. by rewrite Z.eqb_refl.
  - intros Hne. apply Z.eqb_neq in Hne. rewrite Hne.
    destruct (add_row_loop (4 * K.alpha ka) current (Z.to_nat nc) 0 st)
      as (st' & Hrun & Hadds & Hmem & Hc).
    { intros d Hd'.
      destruct (rdist_loads _ _ _ _ _ d Hd) as [Hcur _]; [lia|done]. }
    exists st'. split; [exact Hrun|].
    destruct (decide (0 ≤ nc)%Z) as [Hnc|Hnc].
    + rewrite Z2Nat.id in Hadds, Hmem by done.
      split; [done|]. split; [|done].
      intros q. rewrite Hmem. repeat case_decide; try done; lia.
    + replace (Z.to_nat nc) with 0%nat in * by lia. simpl in *.
      split; [by rewrite (seqZ_nil 0 nc) by lia|]. split; [|done].
      intros q. rewrite Hmem. repeat case_decide; try done; lia.
Qed.
End Degenerate.

(** ** The negative candidate *)

Section Candidate.
Context `{Externals}.
Variable ka : kernel_args.

Local Abbreviation nc := (ML.n_components (K.params ka)).

(** C10, as the code has it: when the generator returns [r >= 0] and
    [tail_n > 0], the candidate [r % tail_n] is a vertex of the tail
    embedding, and the read of each of its [n_components] cells is inside
    a tail buffer of [tail_n] rows. *)
Theorem negative_candidate_in_bounds row p :
  (0 < K.tail_n ka)%Z →
  (0 ≤ philox_next (K.seed ka) row 0 p)%Z →
  (0 ≤ negative_candidate ka row p < K.tail_n ka)%Z ∧
  ∀ (m : gmap nat (list Q)) buf d,
    m !! base (K.tail_embedding ka) = Some buf →
    (0 ≤ off (K.tail_embedding ka))%Z →
    (off (K.tail_embedding ka) + K.tail_n ka * nc ≤ Z.of_nat (length buf))%Z →
    (0 ≤ d < nc)%Z →
    is_Some (load m (ptr_add (ptr_add (K.tail_embedding ka)
                                (negative_candidate ka row p * nc)) d)).
Proof.
  intros Hn Hr. unfold negative_candidate.
  set (r := philox_next (K.seed ka) row 0 p) in *.
  pose proof (Z.rem_bound_pos r (K.tail_n ka) Hr Hn) as Ht.
  split; [exact Ht|].
  intros m buf d Hbuf Hoff Hlen Hd.
  set (t := Z.rem r (K.tail_n ka)) in *.
  unfold load. simpl. rewrite Hbuf. simpl.
  assert (0 ≤ t * nc ∧ t * nc + d < K.tail_n ka * nc)%Z as [H1 H2] by nia.
  unfold lookupZ.
  destruct (0 <=? _)%Z eqn:E; [|apply Z.leb_gt in E; lia].
  apply lookup_lt_is_Some. lia.
Qed.
End Candidate.

(** ** The schedule builder *)

Lemma max_fold_spec (l : list Q) : ∀ x,
  let m := fold_left (λ m y, if Qltb m y then y else m) l x in
  (m = x ∨ m ∈ l) ∧ x <= m ∧ ∀ y, y ∈ l → y <= m.
Proof.
  induction l as [|z l IH]; intros x; simpl.
  - split; [by left|]. split; [lra|]. intros y Hy. by apply elem_of_nil in Hy.
  - destruct (Qltb x z) eqn:E.
    + apply Qltb_lt in E. destruct (IH z) as (Hin & Hle & Hall).
      split; [right; destruct Hin as [->|?]; [left|by right]|].
      split; [lra|]. intros y [->|Hy]%elem_of_cons; [done|by apply Hall].
    + apply Qltb_ge in E. destruct (IH x) as (Hin & Hle & Hall).
      split; [destruct Hin as [->|?]; [by left|right; by right]|].
      split; [done|]. intros y [->|Hy]%elem_of_cons; [lra|by apply Hall].
Qed.

Lemma max_element_spec (l : list Q) :
  l ≠ [] →
  ∃ m, max_element l = Some m ∧ m ∈ l ∧ ∀ y, y ∈ l → y <= m.
Proof.
  destruct l as [|x l]; [done|]. intros _. simpl.
  destruct (max_fold_spec l x) as (Hin & Hle & Hall).
  eexists. split; [done|]. split.
  - destruct Hin as [->|?]; [left|by right].
  - intros y [->|Hy]%elem_of_cons; [done|by apply Hall].
Qed.

Lemma unaryOp_lookup out inp len op res i x :
  unaryOp out inp len op = Some res →
  (0 ≤ i < len)%Z → lookupZ inp i = Some x →
  lookupZ res i = Some (op x).
Proof.
  unfold unaryOp. intros Hrun Hi Hx.
  destruct (_ && _) eqn:E; [|done]. simplify_eq.
  apply lookupZ_Some in Hx as [_ Hx].
  apply lookupZ_Some. split; [lia|].
  rewrite lookup_app_l by (rewrite length_fmap, length_take; apply lookup_lt_Some in Hx; lia).
  rewrite list_lookup_fmap, lookup_take_lt by lia. by rewrite Hx.
Qed.

Lemma unaryOp_is_Some out inp len op :
  (len ≤ Z.of_nat (length inp))%Z → (len ≤ Z.of_nat (length out))%Z →
  is_Some (unaryOp out inp len op).
Proof.
  intros H1 H2. unfold unaryOp.
  apply Z.leb_le in H1, H2. rewrite H1, H2. simpl. eauto.
Qed.

(** C8: for an edge weight [w] at position [i] of a list of [weights_n]
    weights, the builder succeeds; [weight_max] is the largest weight of
    the list; with [v = n_epochs * (w / weight_max)], the result at [i] is
    [n_epochs / v] when [v > 0] and the sentinel [-1] otherwise. *)
Theorem make_epochs_per_sample_spec weights weights_n n_epochs result i w :
  (weights_n ≤ Z.of_nat (length weights))%Z →
  (weights_n ≤ Z.of_nat (length result))%Z →
  (0 ≤ i < weights_n)%Z →
  lookupZ weights i = Some w →
  ∃ weight_max out,
    weight_max ∈ take (Z.to_nat weights_n) weights ∧
    (∀ y, y ∈ take (Z.to_nat weights_n) weights → y <= weight_max) ∧
    make_epochs_per_sample weights weights_n n_epochs result = Some out ∧
    let v := inject_Z n_epochs * (w / weight_max) in
    (0 < v → lookupZ out i = Some (inject_Z n_epochs / v)) ∧
    (¬ 0 < v → lookupZ out i = Some (-1)).
Proof.
  intros Hlw Hlr Hi Hw.
  destruct (max_element_spec (take (Z.to_nat weights_n) weights))
    as (wm & Hmax & Hin & Hall).
  { apply lookupZ_Some in Hw as [_ Hw]. intros Hnil.
    assert (take (Z.to_nat weights_n) weights !! Z.to_nat i = Some w) as Ht
      by (rewrite lookup_take_lt by lia; done).
    by rewrite Hnil in Ht. }
  destruct (unaryOp_is_Some result weights weights_n
              (epochs_per_sample_of n_epochs wm) Hlw Hlr) as [out Hout].
  exists wm, out. split; [done|]. split; [done|].
  unfold make_epochs_per_sample. rewrite Hmax. simpl. split; [done|].
  pose proof (unaryOp_lookup _ _ _ _ _ _ _ Hout Hi Hw) as Hres.
  unfold epochs_per_sample_of in Hres. simpl in *.
  split; intros Hv.
  - apply Qltb_lt in Hv. by rewrite Hv in Hres.
  - destruct (Qltb 0 _) eqn:E in Hres; [|done].
    apply Qltb_lt in E. done.
Qed.

(** ** The launches of the driver *)

Section Launches.
Context `{Externals}.
Variable TPB_X : Z.
Variable la : layout_args.

Lemma optimize_layout_epoch_inv epns n s s' :
  optimize_layout_epoch TPB_X la epns n s = Some s' →
  launches s' = launches s ++ [launch_args la epns n (alpha s)] ∧
  alpha s' = ML.initial_alpha (L.params la) *
             (1 - inject_Z n / inject_Z (L.n_epochs la)) ∧
  ∃ st, optimize_batch_kernel (launch_args la epns n (alpha s)) TPB_X (ks s)
          = Some st ∧
        match ML.callback (L.params la) with
        | Some f => on_epoch_end f (L.head_embedding la) st
        | None => Some st
        end = Some (ks s').
Proof.
  unfold optimize_layout_epoch. intros Hrun.
  destruct (optimize_batch_kernel _ _ _) as [st|]; simpl in Hrun; [|done].
  destruct (match ML.callback _ with Some _ => _ | None => _ end)
    as [st1|] eqn:E; simpl in Hrun; [|done].
  simplify_eq. simpl. eauto.
Qed.

Lemma epoch_loop_launches epns k : ∀ i s s',
  for_loop k i (optimize_layout_epoch TPB_X la epns) s = Some s' →
  launches s' =
    launches s ++
    ((λ n, launch_args la epns n
             (if decide (n = i) then alpha s
              else ML.initial_alpha (L.params la) *
                   (1 - inject_Z (n - 1) / inject_Z (L.n_epochs la))))
       <$> seqZ i (Z.of_nat k)).
Proof.
  induction k as [|k IH]; intros i s s' Hrun; simpl in Hrun.
  - simplify_eq. by rewrite app_nil_r.
  - destruct (optimize_layout_epoch _ _ _ _ _) as [s1|] eqn:E;
      simpl in Hrun; [|done].
    apply optimize_layout_epoch_inv in E as (El & Ea & _).
    rewrite (IH _ _ _ Hrun), El, <-app_assoc. f_equal.
    rewrite (seqZ_cons i) by lia. rewrite fmap_cons.
    rewrite decide_True by done. simpl. f_equal.
    replace (Z.succ i) with (i + 1)%Z by lia.
    replace (Z.pred (Z.of_nat (S k))) with (Z.of_nat k) by lia.
    apply list_fmap_ext. intros j n Hn.
    apply lookup_seqZ in Hn as [-> Hj].
    rewrite (decide_False (P := (i + 1 + Z.of_nat j = i)%Z)) by lia.
    case_decide as Hd; [|done].
    rewrite Ea. by replace (i + 1 + Z.of_nat j - 1)%Z with i by lia.
Qed.

Lemma optimize_layout_steps_launches k m s :
  optimize_layout_steps TPB_X la k m = Some s →
  ∃ epns,
    epochs_per_negative_sample_of la = Some epns ∧
    launches s =
      (λ n, launch_args la epns n (alpha_at la n)) <$> seqZ 0 (Z.of_nat k).
Proof.
  unfold optimize_layout_steps. intros Hrun.
  destruct (epochs_per_negative_sample_of la) as [epns|] eqn:Ee;
    simpl in Hrun; [|done].
  destruct (optimize_layout_init la m) as [s0|] eqn:E0; simpl in Hrun; [|done].
  exists epns. split; [done|].
  rewrite (epoch_loop_launches _ _ _ _ _ Hrun).
  unfold optimize_layout_init in E0. rewrite Ee in E0. simpl in E0.
  destruct (copy _ epns _); simpl in E0; [|done].
  destruct (copy _ (L.epochs_per_sample la) _); simpl in E0; [|done].
  simplify_eq. simpl. apply list_fmap_ext. intros j n Hn.
  unfold alpha_at. by case_decide.
Qed.

Lemma alpha_at_antitone e1 e2 :
  (0 < L.n_epochs la)%Z → 0 <= ML.initial_alpha (L.params la) →
  (0 ≤ e1 ≤ e2)%Z → alpha_at la e2 <= alpha_at la e1.
Proof.
  intros HN Hia He. unfold alpha_at.
  set (ia := ML.initial_alpha (L.params la)) in *.
  assert (0 < inject_Z (L.n_epochs la)) as HNq.
  { replace 0 with (inject_Z 0) by done. by rewrite <-Zlt_Qlt. }
  assert (∀ x y : Z, (0 ≤ x ≤ y)%Z →
            0 <= inject_Z x / inject_Z (L.n_epochs la) ∧
            inject_Z x / inject_Z (L.n_epochs la)
              <= inject_Z y / inject_Z (L.n_epochs la)) as Hdiv.
  { intros x y Hxy. split.
    - apply Qle_shift_div_l; [done|].
      rewrite Qmult_0_l. replace 0 with (inject_Z 0) by done.
      rewrite <-Zle_Qle. lia.
    - apply Qmult_le_compat_r.
      + rewrite <-Zle_Qle. lia.
      + apply Qlt_le_weak, Qinv_lt_0_compat. done. }
  repeat case_decide; try lia.
  - lra.
  - destruct (Hdiv (e2 - 1) (e2 - 1))%Z as [Hge _]; [lia|]. nra.
  - destruct (Hdiv (e1 - 1) (e2 - 1))%Z as [_ Hge]; [lia|]. nra.
Qed.

(** C1, as the code has it: a run of the driver with [n_epochs > 0]
    launches the kernel once per epoch; the launch of epoch 0 uses
    [initial_alpha], the launch of an epoch [e >= 1] uses
    [initial_alpha * (1 - (e - 1) / n_epochs)], the value annealed at the
    end of epoch [e - 1]; for [initial_alpha >= 0] the learning rate never
    increases from one epoch to a later one. *)
Theorem optimize_layout_alpha m s :
  optimize_layout TPB_X la m = Some s →
  (0 < L.n_epochs la)%Z →
  length (launches s) = Z.to_nat (L.n_epochs la) ∧
  (∀ e, (0 ≤ e < L.n_epochs la)%Z →
     ∃ args, lookupZ (launches s) e = Some args ∧
             K.epoch args = e ∧
             K.alpha args =
               if decide (e = 0%Z) then ML.initial_alpha (L.params la)
               else ML.initial_alpha (L.params la) *
                    (1 - inject_Z (e - 1) / inject_Z (L.n_epochs la))) ∧
  (0 <= ML.initial_alpha (L.params la) →
   ∀ e1 e2 args1 args2,
     (0 ≤ e1 ≤ e2)%Z →
     lookupZ (launches s) e1 = Some args1 →
     lookupZ (launches s) e2 = Some args2 →
     K.alpha args2 <= K.alpha args1).
Proof.
  unfold optimize_layout. intros Hrun HN.
  apply optimize_layout_steps_launches in Hrun as (epns & _ & Hl).
  rewrite Z2Nat.id in Hl by lia.
  assert (∀ e args, lookupZ (launches s) e = Some args →
            (0 ≤ e < L.n_epochs la)%Z ∧
            args = launch_args la epns e (alpha_at la e)) as Hlook.
  { intros e args [He Hargs]%lookupZ_Some.
    rewrite Hl, list_lookup_fmap in Hargs.
    destruct (seqZ 0 (L.n_epochs la) !! Z.to_nat e) as [n|] eqn:En;
      simpl in Hargs; [|done].
    apply lookup_seqZ in En as [-> Hlt]. simplify_eq.
    rewrite Z2Nat.id by lia. split; [lia|]. by rewrite Z.add_0_l. }
  split; [by rewrite Hl, length_fmap, length_seqZ|]. split.
  - intros e He. exists (launch_args la epns e (alpha_at la e)).
    split; [|done]. apply lookupZ_Some. split; [lia|].
    rewrite Hl, list_lookup_fmap.
    rewrite (proj2 (lookup_seqZ 0 (L.n_epochs la) (Z.to_nat e) e)) by lia.
    done.
  - intros Hia e1 e2 args1 args2 He H1 H2.
    apply Hlook in H1 as [_ ->], H2 as [_ ->]. simpl.
    by apply alpha_at_antitone.
Qed.
End Launches.

(** ** The launcher *)

Lemma unaryOp_length out inp len op res :
  unaryOp out inp len op = Some res → length res = length out.
Proof.
  unfold unaryOp. intros Hrun.
  destruct (_ && _) eqn:E; [|done]. simplify_eq.
  apply andb_true_iff in E as [E1 E2]. apply Z.leb_le in E1, E2.
  rewrite length_app, length_fmap, length_take, length_drop. lia.
Qed.

Lemma unaryOp_lookup_ge out inp len op res i :
  unaryOp out inp len op = Some res →
  (0 ≤ len ≤ i)%Z → lookupZ res i = lookupZ out i.
Proof.
  unfold unaryOp. intros Hrun Hi.
  destruct (_ && _) eqn:E; [|done]. simplify_eq.
  apply andb_true_iff in E as [E1 E2]. apply Z.leb_le in E1, E2.
  unfold lookupZ. destruct (0 <=? i)%Z; [|done].
  rewrite lookup_app_r by (rewrite length_fmap, length_take; lia).
  rewrite length_fmap, length_take, lookup_drop. f_equal. lia.
Qed.

Lemma effective_n_epochs_pos m params : (0 < effective_n_epochs m params)%Z.
Proof.
  unfold effective_n_epochs.
  destruct (ML.n_epochs params <=? 0)%Z eqn:E.
  - by destruct (m <=? 10000)%Z.
  - apply Z.leb_gt in E. done.
Qed.

Section LauncherFacts.
Context `{Externals}.
Variable TPB_X : Z.

Lemma launcher_inv m n inp params embedding dev inp' s :
  launcher TPB_X m n inp params embedding dev = Some (inp', s) →
  ∃ epochs_per_sample,
    launcher_prune m inp params = Some (inp', effective_n_epochs m params) ∧
    optimize_layout TPB_X
      (launcher_layout_args m (coo_remove_zeros inp') epochs_per_sample params
         (effective_n_epochs m params) embedding) dev = Some s.
Proof.
  unfold launcher. intros Hrun.
  destruct (launcher_prune m inp params) as [[inp1 n_epochs]|] eqn:Ep;
    simpl in Hrun; [|done].
  destruct (make_epochs_per_sample _ _ _ _) as [eps|]; simpl in Hrun; [|done].
  destruct (optimize_layout _ _ _) as [s1|] eqn:Eo; simpl in Hrun; [|done].
  simplify_eq. exists eps.
  assert (n_epochs = effective_n_epochs m params) as ->; [|done].
  unfold launcher_prune in Ep.
  destruct (max_element _); simpl in Ep; [|done].
  destruct (unaryOp _ _ _ _); simpl in Ep; [|done].
  by simplify_eq.
Qed.

(** C9: every kernel launch that a call of the launcher makes has the one
    [embedding] as head and as tail embedding and [move_other = true];
    there is at least one launch; and each dimension of an attractive
    update under such a launch adds to the head row and to the tail
    row. *)
Theorem launcher_fit_mode m n inp params embedding dev inp' s :
  launcher TPB_X m n inp params embedding dev = Some (inp', s) →
  (0 < length (launches s))%nat ∧
  Forall (λ args, K.head_embedding args = embedding ∧
                  K.tail_embedding args = embedding ∧
                  K.move_other args = true) (launches s) ∧
  ∀ args coeff current other d st st',
    args ∈ launches s →
    attractive_update args coeff current other d st = Some st' →
    ∃ g, adds st' =
           adds st ++ [(ptr_add current d, g * K.alpha args);
                       (ptr_add other d, - (g * K.alpha args))].
Proof.
  intros Hrun. apply launcher_inv in Hrun as (eps & _ & Hrun).
  unfold optimize_layout in Hrun.
  apply optimize_layout_steps_launches in Hrun as (epns & _ & Hl).
  simpl in Hl. pose proof (effective_n_epochs_pos m params) as Hpos.
  assert (Forall (λ args, K.head_embedding args = embedding ∧
                          K.tail_embedding args = embedding ∧
                          K.move_other args = true) (launches s)) as Hall.
  { rewrite Hl. apply Forall_fmap, Forall_forall. intros e _. simpl.
    split; [done|]. split; [done|].
    unfold move_other_of. simpl. by apply bool_decide_eq_true. }
  split; [rewrite Hl, length_fmap, length_seqZ; lia|].
  split; [done|].
  intros args coeff current other d st st' Hin Hupd.
  rewrite Forall_forall in Hall. destruct (Hall _ Hin) as (_ & _ & Hmove).
  apply attractive_update_adds in Hupd as (cd & od & _ & _ & Hcases).
  simpl in Hcases. exists (clip (coeff * (cd - od)) (-4) 4).
  destruct Hcases as [(_ & st1 & E1 & E2)|(Hm & _)]; [|congruence].
  apply atomicAdd_adds in E1, E2. by rewrite E2, E1, <-app_assoc.
Qed.

(** C4, as the code has it: a call of the launcher leaves the head and
    tail index arrays and the edge count of the caller's edge list as they
    were, and rewrites its weight array in place: among the first [nnz]
    weights, each weight below [max_weight / n_epochs] becomes 0 and every
    other weight is kept. *)
Theorem launcher_edge_list m n inp params embedding dev inp' s :
  launcher TPB_X m n inp params embedding dev = Some (inp', s) →
  COO.rows inp' = COO.rows inp ∧
  COO.cols inp' = COO.cols inp ∧
  COO.nnz inp' = COO.nnz inp ∧
  length (COO.vals inp') = length (COO.vals inp) ∧
  ∃ max_weight,
    max_element (take (Z.to_nat (COO.nnz inp)) (COO.vals inp))
      = Some max_weight ∧
    let threshold := max_weight / inject_Z (effective_n_epochs m params) in
    ∀ i w,
      lookupZ (COO.vals inp) i = Some w →
      ((0 ≤ i < COO.nnz inp)%Z → w < threshold →
       lookupZ (COO.vals inp') i = Some 0) ∧
      ((0 ≤ i < COO.nnz inp)%Z → ¬ w < threshold →
       lookupZ (COO.vals inp') i = Some w) ∧
      ((COO.nnz inp ≤ i)%Z → lookupZ (COO.vals inp') i = Some w).
Proof.
  intros Hrun. apply launcher_inv in Hrun as (eps & Hp & _).
  unfold launcher_prune in Hp.
  destruct (max_element _) as [mx|] eqn:Em; simpl in Hp; [|done].
  destruct (unaryOp _ _ _ _) as [vals|] eqn:Eu; simpl in Hp; [|done].
  simplify_eq. simpl.
  split; [done|]. split; [done|]. split; [done|].
  split; [by eapply unaryOp_length|].
  exists mx. split; [done|]. intros i w Hw.
  assert (0 ≤ COO.nnz inp)%Z as Hnnz.
  { destruct (decide (0 ≤ COO.nnz inp)%Z); [done|].
    replace (Z.to_nat (COO.nnz inp)) with 0%nat in Em by lia.
    by rewrite take_0 in Em. }
  split; [|split].
  - intros Hi Hlt.
    rewrite (unaryOp_lookup _ _ _ _ _ _ _ Eu Hi Hw).
    unfold prune_weight. apply Qltb_lt in Hlt. by rewrite Hlt.
  - intros Hi Hge.
    rewrite (unaryOp_lookup _ _ _ _ _ _ _ Eu Hi Hw).
    unfold prune_weight. destruct (Qltb w _) eqn:E; [|done].
    apply Qltb_lt in E. done.
  - intros Hi. rewrite (unaryOp_lookup_ge _ _ _ _ _ _ Eu) by lia. done.
Qed.
End LauncherFacts.

(** ** The scheduling counters *)

Lemma Qtrunc_nonneg (x : Q) :
  0 <= x → (0 ≤ Qtrunc x)%Z ∧ inject_Z (Qtrunc x) <= x.
Proof.
  intros Hx. assert (Qtrunc x = Qfloor x) as ->.
  { destruct x as [p q]. unfold Qtrunc, Qfloor. simpl.
    apply Z.quot_div_nonneg; [|done].
    unfold Qle in Hx. simpl in Hx. lia. }
  split; [|apply Qfloor_le].
  change 0%Z with (Qfloor 0). by apply Qfloor_resp_le.
Qed.

Lemma storeZ_lookup {A} (l l' : list A) i x :
  storeZ l i x = Some l' →
  lookupZ l' i = Some x ∧ ∀ j, j ≠ i → lookupZ l' j = lookupZ l j.
Proof.
  unfold storeZ. intros Hs.
  destruct (_ && _) eqn:E; [|done]. simplify_eq.
  apply andb_true_iff in E as [E1 E2].
  apply Z.leb_le in E1. apply Z.ltb_lt in E2. split.
  - apply lookupZ_Some. split; [done|].
    apply list_lookup_insert_eq. lia.
  - intros j Hj. unfold lookupZ. destruct (0 <=? j)%Z eqn:Ej; [|done].
    apply Z.leb_le in Ej. apply list_lookup_insert_ne. lia.
Qed.

Lemma counters_at_Some st row x y :
  counters_at st row = Some (x, y) ↔
  lookupZ (epoch_of_next_sample st) row = Some x ∧
  lookupZ (epoch_of_next_negative_sample st) row = Some y.
Proof.
  unfold counters_at.
  destruct (lookupZ (epoch_of_next_sample st) row); simpl.
  - destruct (lookupZ (epoch_of_next_negative_sample st) row); simpl.
    + split; [by intros [= -> ->]|by intros [[= ->] [= ->]]].
    + split; [done|by intros [_ ?]].
  - split; [done|by intros [? _]].
Qed.

Lemma counters_same_refl st : counters_same st st.
Proof. done. Qed.

Lemma counters_same_trans s1 s2 s3 :
  counters_same s1 s2 → counters_same s2 s3 → counters_same s1 s3.
Proof. unfold counters_same. intros [??] [??]. split; congruence. Qed.

Section Counters.
Context `{Externals}.

Lemma attractive_update_counters ka coeff current other d st st' :
  attractive_update ka coeff current other d st = Some st' →
  counters_same st st'.
Proof.
  intros Hrun.
  apply attractive_update_adds in Hrun as (cd & od & _ & _ & Hcases).
  simpl in Hcases. destruct Hcases as [(_ & st1 & E1 & E2)|(_ & E1)].
  - eapply counters_same_trans; by eapply atomicAdd_counters.
  - by eapply atomicAdd_counters.
Qed.

Lemma repulsive_update_counters ka coeff current negative_sample d st st' :
  repulsive_update ka coeff current negative_sample d st = Some st' →
  counters_same st st'.
Proof.
  unfold repulsive_update. intros Hrun.
  match type of Hrun with (mbind _ ?e = _) => destruct e as [g|] end;
    simpl in Hrun; [|done].
  by eapply atomicAdd_counters.
Qed.

Lemma negative_draw_counters ka row j current p st st' :
  negative_draw ka row j current p st = Some st' → counters_same st st'.
Proof.
  unfold negative_draw. intros Hrun.
  destruct (K.tail_n ka =? 0)%Z; [done|].
  match type of Hrun with (mbind _ ?e = _) => destruct e as [d2|] end;
    simpl in Hrun; [|done].
  destruct (Qltb 0 d2).
  - eapply for_range_rel;
      [apply counters_same_refl|apply counters_same_trans| |done].
    intros ???. apply repulsive_update_counters.
  - destruct (j =? _)%Z; [by simplify_eq|].
    eapply for_range_rel;
      [apply counters_same_refl|apply counters_same_trans| |done].
    intros ???. apply repulsive_update_counters.
Qed.

(** What one thread does to the counters: nothing, or one step of the
    schedule of its own row. *)
Lemma kernel_thread_counters ka row st st' :
  kernel_thread ka row st = Some st' →
  (∀ i, i ≠ row → counters_at st' i = counters_at st i) ∧
  (counters_same st st' ∨
   ∃ x y eps epns,
     counters_at st row = Some (x, y) ∧
     x <= inject_Z (K.epoch ka) ∧
     lookupZ (K.epochs_per_sample ka) row = Some eps ∧
     lookupZ (K.epochs_per_negative_sample ka) row = Some epns ∧
     counters_at st' row =
       Some (x + eps,
             y + inject_Z (Qtrunc ((inject_Z (K.epoch ka) - y) / epns))
                 * epns)).
Proof.
  unfold kernel_thread. intros Hrun.
  destruct (row <? K.nnz ka)%Z; [|by simplify_eq; split; [|left]].
  destruct (lookupZ (epoch_of_next_sample st) row) as [x|] eqn:Ex;
    simpl in Hrun; [|done].
  destruct (Qle_bool x _) eqn:Ele; [|by simplify_eq; split; [|left]].
  apply Qle_bool_iff in Ele.
  destruct (lookupZ (K.head ka) row) as [j|]; simpl in Hrun; [|done].
  destruct (lookupZ (K.tail ka) row) as [k|]; simpl in Hrun; [|done].
  destruct (rdist _ _ _ _) as [d2|]; simpl in Hrun; [|done].
  destruct (for_range _ _ st) as [st1|] eqn:E1; simpl in Hrun; [|done].
  destruct (lookupZ (K.epochs_per_sample ka) row) as [eps|];
    simpl in Hrun; [|done].
  destruct (bump_next_sample row eps st1) as [st2|] eqn:E2;
    simpl in Hrun; [|done].
  destruct (lookupZ (epoch_of_next_negative_sample st2) row) as [y|] eqn:Ey;
    simpl in Hrun; [|done].
  destruct (lookupZ (K.epochs_per_negative_sample ka) row) as [epns|];
    simpl in Hrun; [|done].
  destruct (for_range _ _ st2) as [st3|] eqn:E3; simpl in Hrun; [|done].
  assert (counters_same st st1) as [Hs1 Hn1].
  { eapply for_range_rel;
      [apply counters_same_refl|apply counters_same_trans| |exact E1].
    intros ???. apply attractive_update_counters. }
  assert (counters_same st2 st3) as [Hs3 Hn3].
  { eapply for_range_rel;
      [apply counters_same_refl|apply counters_same_trans| |exact E3].
    intros ???. apply negative_draw_counters. }
  unfold bump_next_sample in E2. rewrite Hs1, Ex in E2. simpl in E2.
  destruct (storeZ (epoch_of_next_sample st) row (x + eps)) as [l2|] eqn:El2;
    simpl in E2; [|done].
  simplify_eq. simpl in *.
  unfold bump_next_negative_sample in Hrun. rewrite Hn3 in Hrun.
  simpl in Hrun. rewrite Ey in Hrun. simpl in Hrun.
  match type of Hrun with (mbind _ ?e = _) =>
    destruct e as [l3|] eqn:El3 end; simpl in Hrun; [|done].
  simplify_eq. rewrite Hn1 in Ey, El3.
  apply storeZ_lookup in El2 as [Hx2 Hx2'], El3 as [Hy3 Hy3'].
  split.
  - intros i Hi. unfold counters_at. simpl.
    by rewrite Hx2', Hy3'.
  - right. exists x, y, eps, epns.
    split; [by apply counters_at_Some|]. do 3 (split; [done|]).
    by apply counters_at_Some.
Qed.
End Counters.

Lemma counters_advance_refl row n st : counters_advance row n st st.
Proof. intros c Hc Hi. exists c. split; [done|]. split; [lra|]. split; [lra|done]. Qed.

Lemma counters_advance_trans row n s1 s2 s3 :
  counters_advance row n s1 s2 → counters_advance row n s2 s3 →
  counters_advance row n s1 s3.
Proof.
  intros H12 H23 c Hc Hi.
  destruct (H12 c Hc Hi) as (c2 & Hc2 & Hx2 & Hy2 & Hi2).
  destruct (H23 c2 Hc2 Hi2) as (c3 & Hc3 & Hx3 & Hy3 & Hi3).
  exists c3. split; [done|]. split; [lra|]. split; [lra|done].
Qed.

Lemma Qtrunc_opp (x : Q) : Qtrunc (- x) = (- Qtrunc x)%Z.
Proof. destruct x as [p q]. unfold Qtrunc. simpl. by apply Z.quot_opp_l. Qed.

Lemma Qtrunc_nonpos (x : Q) :
  x <= 0 → (Qtrunc x ≤ 0)%Z ∧ x <= inject_Z (Qtrunc x).
Proof.
  intros Hx. destruct (Qtrunc_nonneg (- x)) as [Hk Hle]; [lra|].
  rewrite Qtrunc_opp in Hk, Hle. rewrite inject_Z_opp in Hle.
  split; [lia|lra].
Qed.

(** One step of the schedule of an edge that is due at epoch [n]: the
    quotient is truncated toward zero, so that the multiple of [epns] that
    is added is not negative and does not take the counter past [n],
    whatever the sign of [epns]. *)
Lemma schedule_step (n : Z) (x y eps epns : Q) :
  0 <= eps →
  x <= inject_Z n → schedule_inv n (x, y) →
  let y' := y + inject_Z (Qtrunc ((inject_Z n - y) / epns)) * epns in
  x <= x + eps ∧ y <= y' ∧ y' <= inject_Z n.
Proof.
  intros Heps Hx Hinv. simpl.
  assert (y <= inject_Z n) as Hy.
  { destruct Hinv as [Hi|Hi]; simpl in Hi; lra. }
  set (q := (inject_Z n - y) / epns).
  split; [lra|].
  destruct (Q_dec epns 0) as [[Hneg|Hpos]|Hzero].
  - assert (q <= 0) as Hq.
    { unfold q, Qdiv.
      assert (/ epns < 0) as Hinv'.
      { apply Qopp_lt_compat in Hneg.
        assert (0 < / (- epns)) as Hp by (apply Qinv_lt_0_compat; lra).
        assert (/ (- epns) == - / epns) as He by (field; lra).
        lra. }
      nra. }
    destruct (Qtrunc_nonpos q Hq) as [Hk Hle].
    assert (inject_Z (Qtrunc q) <= 0) as Hk'.
    { change 0 with (inject_Z 0). by rewrite <-Zle_Qle. }
    assert (q * epns == inject_Z n - y) as Hmul.
    { unfold q. field. lra. }
    split; nra.
  - assert (0 <= q) as Hq.
    { apply Qle_shift_div_l; [done|]. lra. }
    destruct (Qtrunc_nonneg q Hq) as [Hk Hle].
    assert (0 <= inject_Z (Qtrunc q)) as Hk'.
    { change 0 with (inject_Z 0). by rewrite <-Zle_Qle. }
    assert (q * epns == inject_Z n - y) as Hmul.
    { unfold q. field. lra. }
    split; nra.
  - assert (q == 0) as Hq.
    { unfold q, Qdiv. rewrite Hzero. change (/ 0) with 0. lra. }
    assert (Qtrunc q = 0%Z) as ->.
    { destruct q as [p d]. unfold Qeq in Hq. simpl in Hq.
      unfold Qtrunc. simpl. assert (p = 0%Z) as -> by lia. done. }
    change (inject_Z 0) with 0. split; lra.
Qed.

Section CountersRow.
Context `{Externals}.
Variable row : Z.
Variables eps epns : Q.
Hypothesis eps_nonneg : 0 <= eps.

Lemma kernel_thread_advance ka i st st' :
  lookupZ (K.epochs_per_sample ka) row = Some eps →
  lookupZ (K.epochs_per_negative_sample ka) row = Some epns →
  kernel_thread ka i st = Some st' →
  counters_advance row (K.epoch ka) st st'.
Proof.
  intros Heps Hepns Hrun.
  apply kernel_thread_counters in Hrun as [Hother Hown].
  intros c Hc Hinv.
  destruct (decide (i = row)) as [->|Hne].
  - destruct Hown as [[Hs Hn]|(x & y & e & en & Hxy & Hx & He & Hen & Hc')].
    + exists c. split.
      * unfold counters_at in *. by rewrite Hs, Hn.
      * split; [lra|]. split; [lra|done].
    + simplify_eq.
      destruct (schedule_step (K.epoch ka) x y eps epns) as (H1 & H2 & H3);
        [done|done|done|].
      eexists. split; [exact Hc'|]. simpl.
      split; [done|]. split; [done|]. by left.
  - exists c. split; [by rewrite Hother|].
    split; [lra|]. split; [lra|done].
Qed.

Lemma kernel_advance ka TPB_X st st' :
  lookupZ (K.epochs_per_sample ka) row = Some eps →
  lookupZ (K.epochs_per_negative_sample ka) row = Some epns →
  optimize_batch_kernel ka TPB_X st = Some st' →
  counters_advance row (K.epoch ka) st st'.
Proof.
  intros Heps Hepns Hrun. unfold optimize_batch_kernel in Hrun.
  eapply for_range_rel;
    [apply counters_advance_refl|apply counters_advance_trans| |exact Hrun].
  intros ???. by apply kernel_thread_advance.
Qed.

Lemma schedule_inv_mono n n' c :
  (n ≤ n')%Z → schedule_inv n c → schedule_inv n' c.
Proof.
  intros Hn [Hi|Hi]; [left|by right].
  rewrite Zle_Qle in Hn. lra.
Qed.

Lemma epoch_loop_advance TPB_X la epnsl k : ∀ i s s',
  lookupZ (L.epochs_per_sample la) row = Some eps →
  lookupZ epnsl row = Some epns →
  for_loop k i (optimize_layout_epoch TPB_X la epnsl) s = Some s' →
  ∀ c, counters_at (ks s) row = Some c → schedule_inv i c →
  ∃ c', counters_at (ks s') row = Some c' ∧
        c.1 <= c'.1 ∧ c.2 <= c'.2 ∧ schedule_inv (i + Z.of_nat k) c'.
Proof.
  induction k as [|k IH]; intros i s s' Heps Hepns Hrun c Hc Hinv.
  - simpl in Hrun. simplify_eq. exists c. split; [done|].
    split; [lra|]. split; [lra|]. by rewrite Z.add_0_r.
  - simpl in Hrun.
    destruct (optimize_layout_epoch _ _ _ _ _) as [s1|] eqn:E;
      simpl in Hrun; [|done].
    apply optimize_layout_epoch_inv in E as (_ & _ & st & Hk & Hcb).
    apply kernel_advance in Hk; [|done..]. simpl in Hk.
    destruct (Hk c Hc Hinv) as (c1 & Hc1 & Hx1 & Hy1 & Hi1).
    assert (counters_at (ks s1) row = Some c1) as Hc1'.
    { destruct (ML.callback (L.params la)) as [f|]; [|by simplify_eq].
      unfold on_epoch_end in Hcb.
      destruct (mem st !! _); simpl in Hcb; [|done].
      injection Hcb as <-. done. }
    destruct (IH (i + 1)%Z s1 s' Heps Hepns Hrun c1 Hc1')
      as (c' & Hc' & Hx' & Hy' & Hi').
    { eapply schedule_inv_mono; [|done]. lia. }
    exists c'. split; [done|]. split; [lra|]. split; [lra|].
    by replace (i + Z.of_nat (S k))%Z with (i + 1 + Z.of_nat k)%Z by lia.
Qed.
End CountersRow.

Lemma for_loop_app {St} (body : Z → St → option St) k1 k2 : ∀ i s,
  for_loop (k1 + k2) i body s =
  s1 ← for_loop k1 i body s; for_loop k2 (i + Z.of_nat k1)%Z body s1.
Proof.
  induction k1 as [|k1 IH]; intros i s.
  - simpl. by rewrite Z.add_0_r.
  - simpl. destruct (body i s) as [s1|]; simpl; [|done].
    rewrite IH. by replace (i + 1 + Z.of_nat k1)%Z with (i + Z.of_nat (S k1))%Z by lia.
Qed.

Section CountersRun.
Context `{Externals}.
Variable TPB_X : Z.
Variable la : layout_args.

Lemma optimize_layout_init_counters m s0 epnsl row eps :
  epochs_per_negative_sample_of la = Some epnsl →
  optimize_layout_init la m = Some s0 →
  (0 ≤ row < L.nnz la)%Z →
  lookupZ (L.epochs_per_sample la) row = Some eps →
  let epns := eps / inject_Z (ML.negative_sample_rate (L.params la)) in
  lookupZ epnsl row = Some epns ∧
  counters_at (ks s0) row = Some (eps, epns).
Proof.
  intros He H0 Hrow Heps epns.
  assert (lookupZ epnsl row = Some epns) as Hepns.
  { unfold epochs_per_negative_sample_of in He.
    by rewrite (unaryOp_lookup _ _ _ _ _ _ _ He Hrow Heps). }
  split; [done|].
  unfold optimize_layout_init in H0. rewrite He in H0. simpl in H0.
  destruct (copy _ epnsl _) as [nn|] eqn:E1; simpl in H0; [|done].
  destruct (copy _ (L.epochs_per_sample la) _) as [nx|] eqn:E2;
    simpl in H0; [|done].
  simplify_eq. apply counters_at_Some. simpl. unfold copy in *.
  rewrite (unaryOp_lookup _ _ _ _ _ _ _ E1 Hrow Hepns).
  by rewrite (unaryOp_lookup _ _ _ _ _ _ _ E2 Hrow Heps).
Qed.

(** The counters of an edge whose [epochs_per_sample] is not negative:
    they start at [epochs_per_sample[edge]] and at
    [epochs_per_sample[edge] / negative_sample_rate], and their values
    after [k1] epochs are not above their values after any [k2 >= k1]
    epochs. *)
Lemma layout_counters_monotone m row eps k1 k2 s1 s2 :
  (0 ≤ row < L.nnz la)%Z →
  lookupZ (L.epochs_per_sample la) row = Some eps →
  0 <= eps →
  (k1 ≤ k2)%nat →
  optimize_layout_steps TPB_X la k1 m = Some s1 →
  optimize_layout_steps TPB_X la k2 m = Some s2 →
  (k1 = 0%nat →
   counters_at (ks s1) row =
     Some (eps, eps / inject_Z (ML.negative_sample_rate (L.params la)))) ∧
  ∃ c1 c2,
    counters_at (ks s1) row = Some c1 ∧
    counters_at (ks s2) row = Some c2 ∧
    c1.1 <= c2.1 ∧ c1.2 <= c2.2.
Proof.
  intros Hrow Heps Hpos Hk H1 H2.
  unfold optimize_layout_steps in H1, H2.
  destruct (epochs_per_negative_sample_of la) as [epnsl|] eqn:Ee;
    simpl in H1, H2; [|done].
  destruct (optimize_layout_init la m) as [s0|] eqn:E0;
    simpl in H1, H2; [|done].
  destruct (optimize_layout_init_counters m s0 epnsl row eps Ee E0 Hrow Heps)
    as [Hepns Hc0].
  set (nsr := ML.negative_sample_rate (L.params la)) in *.
  set (epns := eps / inject_Z nsr) in *.
  assert (schedule_inv 0 (eps, epns)) as Hi0.
  { destruct (Z_lt_le_dec 0 nsr) as [Hnsr|Hnsr].
    - right. simpl. unfold epns. apply Qle_shift_div_r.
      + change 0 with (inject_Z 0). by rewrite <-Zlt_Qlt.
      + assert (1 <= inject_Z nsr).
        { change 1 with (inject_Z 1). rewrite <-Zle_Qle. lia. }
        nra.
    - left. simpl. change (inject_Z 0) with 0. unfold epns, Qdiv.
      assert (inject_Z nsr <= 0) as Hq.
      { change 0 with (inject_Z 0). by rewrite <-Zle_Qle. }
      assert (/ inject_Z nsr <= 0) as Hinv.
      { destruct (Qeq_dec (inject_Z nsr) 0) as [Hz|Hnz].
        - rewrite Hz. by change (/ 0) with 0.
        - assert (0 < / (- inject_Z nsr)) as Hp
            by (apply Qinv_lt_0_compat; lra).
          assert (/ (- inject_Z nsr) == - / inject_Z nsr) as He
            by (by field).
          lra. }
      nra. }
  destruct (epoch_loop_advance row eps epns Hpos TPB_X la epnsl
              k1 0%Z s0 s1 Heps Hepns H1 _ Hc0 Hi0)
    as (c1 & Hc1 & Hx1 & Hy1 & Hi1).
  replace k2 with (k1 + (k2 - k1))%nat in H2 by lia.
  rewrite for_loop_app, H1 in H2. simpl in H2.
  destruct (epoch_loop_advance row eps epns Hpos TPB_X la epnsl
              (k2 - k1) _ s1 s2 Heps Hepns H2 _ Hc1 Hi1)
    as (c2 & Hc2 & Hx2 & Hy2 & _).
  split.
  - intros ->. simpl in H1. by simplify_eq.
  - by exists c1, c2.
Qed.

(** A run of [k2] epochs that returns has returned after each smaller
    number of epochs. *)
Lemma optimize_layout_steps_prefix m k1 k2 s2 :
  (k1 ≤ k2)%nat →
  optimize_layout_steps TPB_X la k2 m = Some s2 →
  is_Some (optimize_layout_steps TPB_X la k1 m).
Proof.
  intros Hk H2. unfold optimize_layout_steps in *.
  destruct (epochs_per_negative_sample_of la) as [epnsl|];
    simpl in *; [|done].
  destruct (optimize_layout_init la m) as [s0|]; simpl in *; [|done].
  replace k2 with (k1 + (k2 - k1))%nat in H2 by lia.
  rewrite for_loop_app in H2.
  destruct (for_loop k1 _ _ _) as [s1|]; [by eexists|done].
Qed.
End CountersRun.

(** * Concrete runs *)

(** C2, as the code has it: on the weights [0.01; 0.5; 1.0] with
    [n_epochs = 100] the threshold is [1.0 / 100 = 0.01]; the weight 0.01 is
    not below it, so the thresholding changes no weight and the compaction
    keeps all three edges. *)
Theorem prune_scenario_keeps_all :
  ∃ inp',
    launcher_prune 3 coo0 params100 = Some (inp', 100%Z) ∧
    max_element (COO.vals coo0) = Some 1 ∧
    1 / inject_Z 100 == 0.01 ∧
    Qltb 0.01 (1 / inject_Z 100) = false ∧
    COO.vals inp' = [0.01; 0.5; 1] ∧
    coo_remove_zeros inp' = coo0.
Proof.
  eexists. split; [vm_compute; reflexivity|].
  split; [reflexivity|]. split; [reflexivity|]. split; [reflexivity|].
  split; reflexivity.
Qed.

(** C2 as stated fails: the thresholding does not zero the weight 0.01,
    and the compaction does not return the two other edges alone. *)
Lemma prune_scenario_not_removed :
  ¬ ∃ inp' n,
      launcher_prune 3 coo0 params100 = Some (inp', n) ∧
      lookupZ (COO.vals inp') 0 = Some 0 ∧
      COO.vals (coo_remove_zeros inp') = [0.5; 1].
Proof.
  intros (inp' & n & Hrun & Hz & _).
  vm_compute in Hrun. injection Hrun as <- <-.
  vm_compute in Hz. discriminate Hz.
Qed.

(** C6 on a launch over two vertices at 0 and at 10: both calls are made
    with a contribution of about 0.198 and its negation. *)
Lemma kernel_steps_clipped_or_nan_witness :
  ∃ st',
    @IEEE.optimize_batch_kernel env0 libm0 IEEE.float args_line 1 st_line
      = Some st' ∧
    ∃ new, IEEE.adds st' = IEEE.adds st_line ++ new ∧
           (0 < length new)%nat ∧
           Forall (λ ev, IEEE.rate ev = IEEE.alpha args_line ∧
                         (within_four (IEEE.grad ev) ∨
                          IEEE.grad ev = S754_nan)) new.
Proof.
  eexists. split; [vm_compute; reflexivity|].
  destruct (@kernel_steps_clipped_or_nan env0 libm0 IEEE.float args_line 1
              st_line _ ltac:(vm_compute; reflexivity))
    as (new & Hnew & Hall).
  exists new. split; [exact Hnew|]. split; [|exact Hall].
  vm_compute in Hnew. destruct new; [discriminate Hnew|simpl; lia].
Defined.

(** C6 as the specification has it fails on two vertices whose cells are
    finite, at [FLT_MAX] and at [-FLT_MAX]: their difference overflows to
    [+inf] in [float], the squared distance is [+inf], the attractive
    coefficient is [-2 / (inf + 1) = -0], and the product [-0 * inf] that
    line 170 gives to [clip] is NaN.  [clip] returns it unchanged, and the
    launch makes its two calls with a contribution that is NaN, of which
    neither [-4 <= NaN] nor [NaN <= 4] holds. *)
Lemma kernel_step_is_nan :
  IEEE.sub IEEE.float FLT_MAX (SFopp FLT_MAX) = S754_infinity false ∧
  @IEEE.rdist libm0 IEEE.float (IEEE.mem st_far) emb0 (ptr_add emb0 1) 1
    = Some (S754_infinity false) ∧
  @IEEE.attractive_grad libm0 (S754_infinity false) params_line
    = S754_zero true ∧
  IEEE.mul IEEE.double (S754_zero true) (S754_infinity false) = S754_nan ∧
  IEEE.clip S754_nan (IEEE.litf (-4)) (IEEE.litf 4) = S754_nan ∧
  SFleb (IEEE.lit (-4)) S754_nan = false ∧
  SFleb S754_nan (IEEE.lit 4) = false ∧
  ∃ st',
    @IEEE.optimize_batch_kernel env0 libm0 IEEE.float args_line 1 st_far
      = Some st' ∧
    IEEE.adds st' =
      [ {| IEEE.target := emb0; IEEE.grad := S754_nan;
           IEEE.rate := IEEE.alpha args_line |};
        {| IEEE.target := ptr_add emb0 1; IEEE.grad := S754_nan;
           IEEE.rate := IEEE.alpha args_line |} ] ∧
    Forall (λ ev, ¬ within_four (IEEE.grad ev)) (IEEE.adds st').
Proof.
  do 7 (split; [vm_compute; reflexivity|]).
  eexists. split; [vm_compute; reflexivity|].
  split; [vm_compute; reflexivity|].
  repeat constructor; simpl; by intros [? _].
Qed.

(** C7 on the first dimension of the edge (0, 1). *)
Lemma attractive_update_antisymmetric_witness :
  ∃ st',
    @attractive_update args0 (-1 # 2) emb0 (ptr_add emb0 2) 0 st0 = Some st' ∧
    ∃ g,
      (K.move_other args0 = true →
       adds st' = adds st0 ++ [(ptr_add emb0 0, g * K.alpha args0);
                               (ptr_add (ptr_add emb0 2) 0,
                                - (g * K.alpha args0))]) ∧
      (K.move_other args0 = false →
       adds st' = adds st0 ++ [(ptr_add emb0 0, g * K.alpha args0)] ∧
       ∀ q, q ≠ ptr_add emb0 0 → load (mem st') q = load (mem st0) q).
Proof.
  eexists. split; [vm_compute; reflexivity|].
  apply (attractive_update_antisymmetric args0 (-1 # 2) emb0 (ptr_add emb0 2) 0
           st0).
  vm_compute. reflexivity.
Defined.

(** C5 on a draw that picks vertex 1, which lies on vertex 0. *)
Lemma negative_draw_degenerate_witness :
  K.tail_n args0 ≠ 0%Z ∧
  @negative_candidate env0 args0 0 0 = 1%Z ∧
  (0%Z = @negative_candidate env0 args0 0 0 →
   @negative_draw env0 args0 0 0 emb0 0 st1 = Some st1) ∧
  (0%Z ≠ @negative_candidate env0 args0 0 0 →
   ∃ st',
     @negative_draw env0 args0 0 0 emb0 0 st1 = Some st' ∧
     adds st' =
       adds st1 ++
       ((λ d, (ptr_add emb0 d, 4 * K.alpha args0)) <$> seqZ 0 2) ∧
     (∀ q, load (mem st') q =
           if decide (base q = base emb0 ∧
                      (off emb0 ≤ off q < off emb0 + 2)%Z)
           then (λ x, x + 4 * K.alpha args0) <$> load (mem st1) q
           else load (mem st1) q) ∧
     epoch_of_next_sample st' = epoch_of_next_sample st1 ∧
     epoch_of_next_negative_sample st' = epoch_of_next_negative_sample st1).
Proof.
  split; [by vm_compute|]. split; [reflexivity|].
  apply (@negative_draw_degenerate env0 args0 0 0 emb0 0 st1 0).
  - by vm_compute.
  - vm_compute. reflexivity.
  - reflexivity.
Defined.

(** C10 on the first draw of the first edge. *)
Lemma negative_candidate_in_bounds_witness :
  (0 ≤ @negative_candidate env0 args0 0 0 < K.tail_n args0)%Z ∧
  ∀ (m : gmap nat (list Q)) buf d,
    m !! base (K.tail_embedding args0) = Some buf →
    (0 ≤ off (K.tail_embedding args0))%Z →
    (off (K.tail_embedding args0) +
     K.tail_n args0 * ML.n_components (K.params args0)
     ≤ Z.of_nat (length buf))%Z →
    (0 ≤ d < ML.n_components (K.params args0))%Z →
    is_Some (load m (ptr_add (ptr_add (K.tail_embedding args0)
                                (@negative_candidate env0 args0 0 0 *
                                 ML.n_components (K.params args0))) d)).
Proof.
  apply (@negative_candidate_in_bounds env0 args0 0 0).
  - by vm_compute.
  - by vm_compute.
Defined.

(** C10 as stated fails: for the negative [r = -1] and [tail_n = 3] the
    candidate is [-1], and the draw reads outside the tail embedding. *)
Lemma negative_candidate_out_of_bounds :
  (0 < K.tail_n args0)%Z ∧
  @negative_candidate env_neg args0 0 0 = (-1)%Z ∧
  ¬ (0 ≤ @negative_candidate env_neg args0 0 0 < K.tail_n args0)%Z ∧
  @negative_draw env_neg args0 0 0 emb0 0 st0 = None.
Proof.
  split; [by vm_compute|]. split; [reflexivity|].
  split; [vm_compute; intros [Hle _]; by apply Hle|]. reflexivity.
Qed.

(** C8 on the weights [0.5; 1] and two epochs. *)
Lemma make_epochs_per_sample_spec_witness :
  ∃ weight_max out,
    weight_max ∈ take 2 [0.5; 1] ∧
    (∀ y, y ∈ take 2 [0.5; 1] → y <= weight_max) ∧
    make_epochs_per_sample [0.5; 1] 2 2 (device_buffer 2) = Some out ∧
    let v := inject_Z 2 * (0.5 / weight_max) in
    (0 < v → lookupZ out 0 = Some (inject_Z 2 / v)) ∧
    (¬ 0 < v → lookupZ out 0 = Some (-1)).
Proof.
  apply (make_epochs_per_sample_spec [0.5; 1] 2 2 (device_buffer 2) 0 0.5).
  - vm_compute. discriminate.
  - vm_compute. discriminate.
  - lia.
  - reflexivity.
Defined.

(** C1 on a run of two epochs. *)
Lemma optimize_layout_alpha_witness :
  ∃ s,
    @optimize_layout env0 2 la0 dev0 = Some s ∧
    length (launches s) = 2%nat ∧
    (∀ e, (0 ≤ e < 2)%Z →
       ∃ args, lookupZ (launches s) e = Some args ∧
               K.epoch args = e ∧
               K.alpha args =
                 if decide (e = 0%Z) then 1
                 else 1 * (1 - inject_Z (e - 1) / inject_Z 2)) ∧
    (0 <= 1 →
     ∀ e1 e2 args1 args2,
       (0 ≤ e1 ≤ e2)%Z →
       lookupZ (launches s) e1 = Some args1 →
       lookupZ (launches s) e2 = Some args2 →
       K.alpha args2 <= K.alpha args1).
Proof.
  eexists. split; [vm_compute; reflexivity|].
  apply (@optimize_layout_alpha env0 2 la0 dev0).
  - vm_compute. reflexivity.
  - by vm_compute.
Defined.

(** C1 as stated fails: in a run of two epochs with [initial_alpha = 1]
    the launch of epoch 1 uses [1 * (1 - 0 / 2)], which is 1 and not
    [1 * (1 - 1 / 2)]. *)
Lemma optimize_layout_alpha_lags :
  ∃ s args,
    @optimize_layout env0 2 la0 dev0 = Some s ∧
    lookupZ (launches s) 1 = Some args ∧
    K.epoch args = 1%Z ∧
    K.alpha args == 1 ∧
    ¬ K.alpha args ==
        ML.initial_alpha (L.params la0) *
        (1 - inject_Z 1 / inject_Z (L.n_epochs la0)).
Proof.
  eexists _, _. split; [vm_compute; reflexivity|].
  split; [vm_compute; reflexivity|]. split; [reflexivity|].
  split; [reflexivity|]. by vm_compute.
Qed.

(** C9 on a call of the launcher. *)
Lemma launcher_fit_mode_witness :
  ∃ inp' s,
    @launcher env0 2 3 2 coo0 params0 emb0 dev0 = Some (inp', s) ∧
    (0 < length (launches s))%nat ∧
    Forall (λ args, K.head_embedding args = emb0 ∧
                    K.tail_embedding args = emb0 ∧
                    K.move_other args = true) (launches s) ∧
    ∀ args coeff current other d st st',
      args ∈ launches s →
      @attractive_update args coeff current other d st = Some st' →
      ∃ g, adds st' =
             adds st ++ [(ptr_add current d, g * K.alpha args);
                         (ptr_add other d, - (g * K.alpha args))].
Proof.
  eexists _, _. split; [vm_compute; reflexivity|].
  eapply (@launcher_fit_mode env0 2 3 2 coo0 params0 emb0 dev0).
  vm_compute. reflexivity.
Defined.

(** C4 on a call of the launcher. *)
Lemma launcher_edge_list_witness :
  ∃ inp' s,
    @launcher env0 2 3 2 coo0 params0 emb0 dev0 = Some (inp', s) ∧
    COO.rows inp' = COO.rows coo0 ∧
    COO.cols inp' = COO.cols coo0 ∧
    COO.nnz inp' = COO.nnz coo0 ∧
    length (COO.vals inp') = length (COO.vals coo0) ∧
    ∃ max_weight,
      max_element (take (Z.to_nat (COO.nnz coo0)) (COO.vals coo0))
        = Some max_weight ∧
      let threshold := max_weight / inject_Z (effective_n_epochs 3 params0) in
      ∀ i w,
        lookupZ (COO.vals coo0) i = Some w →
        ((0 ≤ i < COO.nnz coo0)%Z → w < threshold →
         lookupZ (COO.vals inp') i = Some 0) ∧
        ((0 ≤ i < COO.nnz coo0)%Z → ¬ w < threshold →
         lookupZ (COO.vals inp') i = Some w) ∧
        ((COO.nnz coo0 ≤ i)%Z → lookupZ (COO.vals inp') i = Some w).
Proof.
  eexists _, _. split; [vm_compute; reflexivity|].
  eapply (@launcher_edge_list env0 2 3 2 coo0 params0 emb0 dev0).
  vm_compute. reflexivity.
Defined.

(** C4 as stated fails: a call of the launcher with a budget of two
    epochs overwrites the weight 0.01 of the caller's edge list by 0. *)
Lemma launcher_rewrites_weights :
  ∃ inp' s,
    @launcher env0 2 3 2 coo0 params0 emb0 dev0 = Some (inp', s) ∧
    COO.vals coo0 = [0.01; 0.5; 1] ∧
    COO.vals inp' = [0; 0.5; 1] ∧
    COO.vals inp' ≠ COO.vals coo0.
Proof.
  eexists _, _. split; [vm_compute; reflexivity|].
  split; [reflexivity|]. split; [reflexivity|]. discriminate.
Qed.

(** * Further properties *)

(** ** Gradient math *)

(** X1: with [lb <= ub], [clip] returns a value inside the bounds
    unchanged, clipping twice is clipping once, and [clip] is monotone in
    its first argument. *)
Theorem clip_idempotent_monotone (lb ub : Q) :
  lb <= ub →
  (∀ v, lb <= v <= ub → clip v lb ub = v) ∧
  (∀ v, clip (clip v lb ub) lb ub = clip v lb ub) ∧
  (∀ v w, v <= w → clip v lb ub <= clip w lb ub).
Proof.
  intros Hb.
  assert (∀ v, lb <= v <= ub → clip v lb ub = v) as Hid.
  { intros v [Hl Hu]. unfold clip.
    rewrite (proj2 (Qltb_ge ub v)) by done.
    by rewrite (proj2 (Qltb_ge v lb)) by done. }
  split; [done|]. split.
  - intros v. apply Hid. by apply clip_bounds.
  - intros v w Hvw. unfold clip.
    destruct (Qltb ub v) eqn:E1; destruct (Qltb ub w) eqn:E2;
      destruct (Qltb v lb) eqn:E3; destruct (Qltb w lb) eqn:E4;
      repeat match goal with
      | H : Qltb _ _ = true |- _ => apply Qltb_lt in H
      | H : Qltb _ _ = false |- _ => apply Qltb_ge in H
      end; lra.
Qed.

Section GradientSigns.
Context `{Externals}.

(** X3: for [a >= 0], [b >= 0] and powers [pow(d2, b)], [pow(d2, b - 1)]
    that are not negative, the attractive coefficient is not positive. *)
Theorem attractive_grad_nonpos (dist_squared : Q) (params : UMAPParams) :
  0 <= ML.a params → 0 <= ML.b params →
  0 <= pow dist_squared (ML.b params) →
  0 <= pow dist_squared (ML.b params - 1) →
  attractive_grad dist_squared params <= 0.
Proof.
  intros Ha Hb Hp Hp1. unfold attractive_grad. simpl.
  set (p := pow dist_squared (ML.b params)) in *.
  set (p1 := pow dist_squared (ML.b params - 1)) in *.
  assert (0 < ML.a params * p + 1) as Hden by nra.
  apply Qle_shift_div_r; [done|].
  assert (0 <= ML.a params * ML.b params) by nra.
  assert (0 <= ML.a params * ML.b params * p1) by nra.
  lra.
Qed.
End GradientSigns.

Section Distance.
Context `{Externals}.

Lemma rdist_loop_is_Some m X Y count : ∀ i acc,
  (∀ d, (i ≤ d < i + Z.of_nat count)%Z →
        is_Some (load m (ptr_add X d)) ∧ is_Some (load m (ptr_add Y d))) →
  is_Some (for_loop count i
             (λ i result,
                x ← load m (ptr_add X i); y ← load m (ptr_add Y i);
                Some (result + pow (x - y) 2)) acc).
Proof.
  induction count as [|c IH]; intros i acc Hl; simpl; [eauto|].
  destruct (Hl i ltac:(lia)) as [[x ->] [y ->]]. simpl.
  apply IH. intros d Hd. apply Hl. lia.
Qed.

(** X4: the squared distance of two rows of [n] cells is defined exactly
    when every one of the [n] cells of both rows can be read; for [n <= 0]
    it reads nothing. *)
Theorem rdist_is_Some_iff m X Y n :
  is_Some (rdist m X Y n) ↔
  ∀ d, (0 ≤ d < n)%Z →
       is_Some (load m (ptr_add X d)) ∧ is_Some (load m (ptr_add Y d)).
Proof.
  split.
  - intros [r Hr] d Hd. by eapply rdist_loads.
  - intros Hl. unfold rdist, for_range. apply rdist_loop_is_Some.
    intros d Hd. apply Hl. lia.
Qed.

Lemma rdist_loop_nonneg m X Y count : ∀ i acc r,
  (∀ z, 0 <= pow z 2) → 0 <= acc →
  for_loop count i
    (λ i result,
       x ← load m (ptr_add X i); y ← load m (ptr_add Y i);
       Some (result + pow (x - y) 2)) acc = Some r →
  acc <= r.
Proof.
  induction count as [|c IH]; intros i acc r Hp Hacc Hrun; simpl in Hrun.
  - simplify_eq. lra.
  - destruct (load m (ptr_add X i)) as [x|]; simpl in Hrun; [|done].
    destruct (load m (ptr_add Y i)) as [y|]; simpl in Hrun; [|done].
    pose proof (Hp (x - y)) as Hxy.
    apply IH in Hrun; [lra|done|lra].
Qed.

Lemma rdist_loop_self m X count : ∀ i acc r,
  (∀ z, z == 0 → pow z 2 == 0) →
  for_loop count i
    (λ i result,
       x ← load m (ptr_add X i); y ← load m (ptr_add X i);
       Some (result + pow (x - y) 2)) acc = Some r →
  r == acc.
Proof.
  induction count as [|c IH]; intros i acc r Hp Hrun; simpl in Hrun.
  - by simplify_eq.
  - destruct (load m (ptr_add X i)) as [x|]; simpl in Hrun; [|done].
    apply IH in Hrun; [|done].
    rewrite Hrun, (Hp (x - x)); [lra|]. lra.
Qed.

(** X5: when [pow(z, 2)] is never negative, a squared distance is never
    negative; when [pow(0, 2)] is 0, the squared distance of a row to
    itself is 0. *)
Theorem rdist_nonneg_self m X Y n r :
  rdist m X Y n = Some r →
  ((∀ z, 0 <= pow z 2) → 0 <= r) ∧
  ((∀ z, z == 0 → pow z 2 == 0) → X = Y → r == 0).
Proof.
  intros Hrun. split.
  - intros Hp. unfold rdist, for_range in Hrun.
    eapply rdist_loop_nonneg in Hrun; [done|done|lra].
  - intros Hp <-. unfold rdist, for_range in Hrun.
    by eapply rdist_loop_self in Hrun.
Qed.
End Distance.

Section SelfDraw.
Context `{Externals}.
Variable ka : kernel_args.

(** X6: a negative draw whose candidate is the edge's own head vertex,
    when the current row is that vertex's row of the tail embedding (as in
    fit mode) and [pow(0, 2)] is 0, leaves the state as it is. *)
Theorem negative_draw_self row j p st :
  let current :=
    ptr_add (K.tail_embedding ka) (j * ML.n_components (K.params ka)) in
  (∀ z, z == 0 → pow z 2 == 0) →
  K.tail_n ka ≠ 0%Z →
  negative_candidate ka row p = j →
  (∀ d, (0 ≤ d < ML.n_components (K.params ka))%Z →
        is_Some (load (mem st) (ptr_add current d))) →
  negative_draw ka row j current p st = Some st.
Proof.
  intros current Hp Hn Ht Hl. unfold negative_draw.
  destruct (K.tail_n ka =? 0)%Z eqn:En; [apply Z.eqb_eq in En; done|].
  rewrite Ht. fold current.
  destruct (proj2 (rdist_is_Some_iff (mem st) current current
                     (ML.n_components (K.params ka)))) as [d2 Hd2].
  { intros d Hd. split; by apply Hl. }
  rewrite Hd2. simpl.
  destruct (rdist_nonneg_self _ _ _ _ _ Hd2) as [_ Hz].
  specialize (Hz Hp eq_refl).
  rewrite (proj2 (Qltb_ge 0 d2)) by lra.
  by rewrite Z.eqb_refl.
Qed.
End SelfDraw.

(** ** The schedule of a weight that is not positive *)

Lemma make_epochs_per_sample_inv weights weights_n n_epochs result out i w :
  make_epochs_per_sample weights weights_n n_epochs result = Some out →
  (0 ≤ i < weights_n)%Z → lookupZ weights i = Some w →
  ∃ weight_max,
    max_element (take (Z.to_nat weights_n) weights) = Some weight_max ∧
    weight_max ∈ take (Z.to_nat weights_n) weights ∧
    (∀ y, y ∈ take (Z.to_nat weights_n) weights → y <= weight_max) ∧
    w <= weight_max ∧
    lookupZ out i = Some (epochs_per_sample_of n_epochs weight_max w).
Proof.
  unfold make_epochs_per_sample. intros Hrun Hi Hw.
  destruct (max_element _) as [wm|] eqn:Em; simpl in Hrun; [|done].
  exists wm. split; [done|].
  destruct (max_element_spec (take (Z.to_nat weights_n) weights))
    as (wm' & Em' & Hin & Hall).
  { intros Hnil. by rewrite Hnil in Em. }
  rewrite Em in Em'. simplify_eq.
  split; [done|]. split; [done|]. split.
  - apply Hall. apply lookupZ_Some in Hw as [_ Hw].
    apply list_elem_of_lookup. exists (Z.to_nat i).
    by rewrite lookup_take_lt by lia.
  - by eapply unaryOp_lookup.
Qed.

(** X8: with [n_epochs >= 0] and a positive largest weight, an edge of
    weight [w <= 0] gets the sentinel [-1]. *)
Theorem make_epochs_per_sample_sentinel
    weights weights_n n_epochs result out i w weight_max :
  make_epochs_per_sample weights weights_n n_epochs result = Some out →
  max_element (take (Z.to_nat weights_n) weights) = Some weight_max →
  0 < weight_max →
  (0 ≤ n_epochs)%Z →
  (0 ≤ i < weights_n)%Z → lookupZ weights i = Some w → w <= 0 →
  lookupZ out i = Some (-1).
Proof.
  intros Hrun Em Hmax Hn Hi Hw Hneg.
  destruct (make_epochs_per_sample_inv _ _ _ _ _ _ _ Hrun Hi Hw)
    as (wm & Em' & _ & _ & _ & Hout).
  rewrite Em in Em'. simplify_eq. rewrite Hout. f_equal.
  unfold epochs_per_sample_of. simpl.
  assert (0 <= inject_Z n_epochs) as Hnq.
  { change 0 with (inject_Z 0). by rewrite <-Zle_Qle. }
  assert (w / wm <= 0) as Hq by (apply Qle_shift_div_r; lra).
  by rewrite (proj2 (Qltb_ge 0 (inject_Z n_epochs * (w / wm)))) by nra.
Qed.

(** ** One launch of the kernel *)

Lemma for_loop_rel_range {St} (R : St → St → Prop)
    (body : Z → St → option St) :
  (∀ s, R s s) →
  (∀ s1 s2 s3, R s1 s2 → R s2 s3 → R s1 s3) →
  ∀ count i s s',
    (∀ j t t', (i ≤ j < i + Z.of_nat count)%Z → body j t = Some t' → R t t') →
    for_loop count i body s = Some s' → R s s'.
Proof.
  intros Hrefl Htrans count.
  induction count as [|c IH]; intros i s s' Hbody Hrun; simpl in Hrun.
  - by simplify_eq.
  - destruct (body i s) as [s1|] eqn:E; simpl in Hrun; [|done].
    eapply Htrans; [eapply (Hbody i); [lia|done]|].
    eapply IH; [|done]. intros j t t' Hj. apply Hbody. lia.
Qed.

Lemma for_loop_fixed {St} (body : Z → St → option St) (s : St) count : ∀ i,
  (∀ j, (i ≤ j < i + Z.of_nat count)%Z → body j s = Some s) →
  for_loop count i body s = Some s.
Proof.
  induction count as [|c IH]; intros i Hbody; simpl; [done|].
  rewrite (Hbody i) by lia. simpl. apply IH. intros j Hj. apply Hbody. lia.
Qed.

Section Launch.
Context `{Externals}.
Variable ka : kernel_args.

Local Abbreviation nc := (ML.n_components (K.params ka)).

(** X9: a launch in which no edge is due (every edge's
    [epoch_of_next_sample] is above the epoch) returns the state it was
    given: no embedding cell and no counter changes. *)
Theorem kernel_idle TPB_X st :
  (∀ row, (0 ≤ row < K.nnz ka)%Z →
     ∃ x, lookupZ (epoch_of_next_sample st) row = Some x ∧
          inject_Z (K.epoch ka) < x) →
  optimize_batch_kernel ka TPB_X st = Some st.
Proof.
  intros Hidle. unfold optimize_batch_kernel, for_range.
  apply for_loop_fixed. intros row Hrow. unfold kernel_thread.
  destruct (row <? K.nnz ka)%Z eqn:E; [|done].
  apply Z.ltb_lt in E.
  destruct (Hidle row ltac:(lia)) as (x & -> & Hx). simpl.
  destruct (Qle_bool x _) eqn:Ele; [|done].
  apply Qle_bool_iff in Ele. lra.
Qed.

(** X10: the thread of [row] leaves the two counters of every other edge
    as they are. *)
Theorem kernel_thread_owns_counters row st st' i :
  kernel_thread ka row st = Some st' →
  i ≠ row →
  lookupZ (epoch_of_next_sample st') i = lookupZ (epoch_of_next_sample st) i ∧
  lookupZ (epoch_of_next_negative_sample st') i
    = lookupZ (epoch_of_next_negative_sample st) i.
Proof.
  unfold kernel_thread. intros Hrun Hi.
  destruct (row <? K.nnz ka)%Z; [|by simplify_eq].
  destruct (lookupZ (epoch_of_next_sample st) row) as [x|] eqn:Ex;
    simpl in Hrun; [|done].
  destruct (Qle_bool x _); [|by simplify_eq].
  destruct (lookupZ (K.head ka) row) as [j|]; simpl in Hrun; [|done].
  destruct (lookupZ (K.tail ka) row) as [k|]; simpl in Hrun; [|done].
  destruct (rdist _ _ _ _) as [d2|]; simpl in Hrun; [|done].
  destruct (for_range _ _ st) as [st1|] eqn:E1; simpl in Hrun; [|done].
  destruct (lookupZ (K.epochs_per_sample ka) row) as [eps|];
    simpl in Hrun; [|done].
  destruct (bump_next_sample row eps st1) as [st2|] eqn:E2;
    simpl in Hrun; [|done].
  destruct (lookupZ (epoch_of_next_negative_sample st2) row) as [y|];
    simpl in Hrun; [|done].
  destruct (lookupZ (K.epochs_per_negative_sample ka) row) as [epns|];
    simpl in Hrun; [|done].
  destruct (for_range _ _ st2) as [st3|] eqn:E3; simpl in Hrun; [|done].
  assert (counters_same st st1) as [Hs1 Hn1].
  { eapply for_range_rel;
      [apply counters_same_refl|apply counters_same_trans| |exact E1].
    intros ???. apply attractive_update_counters. }
  assert (counters_same st2 st3) as [Hs3 Hn3].
  { eapply for_range_rel;
      [apply counters_same_refl|apply counters_same_trans| |exact E3].
    intros ???. apply negative_draw_counters. }
  unfold bump_next_sample in E2.
  destruct (lookupZ (epoch_of_next_sample st1) row) as [x1|];
    simpl in E2; [|done].
  destruct (storeZ (epoch_of_next_sample st1) row (x1 + eps)) as [l2|] eqn:El2;
    simpl in E2; [|done].
  unfold bump_next_negative_sample in Hrun.
  destruct (lookupZ (epoch_of_next_negative_sample st3) row) as [y3|];
    simpl in Hrun; [|done].
  match type of Hrun with (mbind _ ?e = _) =>
    destruct e as [l3|] eqn:El3 end; simpl in Hrun; [|done].
  apply storeZ_lookup in El2 as [_ Hx2], El3 as [_ Hy3].
  simplify_eq. simpl in *.
  rewrite Hs3, Hx2, Hs1 by done. rewrite Hy3, Hn3, Hn1 by done. done.
Qed.

Lemma launch_frame_refl st : launch_frame ka st st.
Proof.
  split; [|done]. exists []. by rewrite app_nil_r.
Qed.

Lemma launch_frame_trans s1 s2 s3 :
  launch_frame ka s1 s2 → launch_frame ka s2 s3 → launch_frame ka s1 s3.
Proof.
  intros ((n1 & E1 & F1) & M1 & L1) ((n2 & E2 & F2) & M2 & L2).
  split; [|split].
  - exists (n1 ++ n2). split; [by rewrite E2, E1, app_assoc|].
    by apply Forall_app.
  - intros b Hb. by rewrite M2, M1.
  - intros b. by rewrite L2, L1.
Qed.

Lemma atomicAdd_frame p v st st' :
  may_write ka (base p) → atomicAdd p v st = Some st' → launch_frame ka st st'.
Proof.
  intros Hp Hrun. pose proof (atomicAdd_adds _ _ _ _ Hrun) as Hadds.
  unfold atomicAdd in Hrun.
  destruct (mem st !! base p) as [buf|] eqn:Eb; simpl in Hrun; [|done].
  destruct (lookupZ buf (off p)) as [old|]; simpl in Hrun; [|done].
  simplify_eq. simpl in *. split; [|split].
  - exists [(p, v)]. split; [done|]. by constructor.
  - intros b Hb. simpl. rewrite lookup_insert_ne; [done|].
    intros Heq. apply Hb. by rewrite <-Heq.
  - intros b. simpl. destruct (decide (b = base p)) as [->|Hne].
    + rewrite lookup_insert_eq, Eb. simpl. by rewrite length_insert.
    + by rewrite lookup_insert_ne.
Qed.

Lemma attractive_update_frame coeff current other d st st' :
  base current = base (K.head_embedding ka) →
  base other = base (K.tail_embedding ka) →
  attractive_update ka coeff current other d st = Some st' →
  launch_frame ka st st'.
Proof.
  intros Hc Ho Hrun.
  apply attractive_update_adds in Hrun as (cd & od & _ & _ & Hcases).
  simpl in Hcases. destruct Hcases as [(Hm & st1 & E1 & E2)|(Hm & E1)].
  - eapply launch_frame_trans.
    + eapply atomicAdd_frame; [|exact E1]. by left.
    + eapply atomicAdd_frame; [|exact E2]. by right.
  - eapply atomicAdd_frame; [|exact E1]. by left.
Qed.

Lemma repulsive_update_frame coeff current negative_sample d st st' :
  base current = base (K.head_embedding ka) →
  repulsive_update ka coeff current negative_sample d st = Some st' →
  launch_frame ka st st'.
Proof.
  unfold repulsive_update. intros Hc Hrun.
  match type of Hrun with (mbind _ ?e = _) => destruct e as [g|] end;
    simpl in Hrun; [|done].
  eapply atomicAdd_frame; [|done]. by left.
Qed.

Lemma negative_draw_launch_frame row j current p st st' :
  base current = base (K.head_embedding ka) →
  negative_draw ka row j current p st = Some st' → launch_frame ka st st'.
Proof.
  unfold negative_draw. intros Hc Hrun.
  destruct (K.tail_n ka =? 0)%Z; [done|].
  match type of Hrun with (mbind _ ?e = _) => destruct e as [d2|] end;
    simpl in Hrun; [|done].
  destruct (Qltb 0 d2).
  - eapply for_range_rel;
      [apply launch_frame_refl|apply launch_frame_trans| |done].
    intros ???. by apply repulsive_update_frame.
  - destruct (j =? _)%Z; [simplify_eq; apply launch_frame_refl|].
    eapply for_range_rel;
      [apply launch_frame_refl|apply launch_frame_trans| |done].
    intros ???. by apply repulsive_update_frame.
Qed.

Lemma launch_frame_same st st' :
  adds st' = adds st → mem st' = mem st → launch_frame ka st st'.
Proof.
  intros Ea Em. split; [|by rewrite Em].
  exists []. by rewrite Ea, app_nil_r.
Qed.

Lemma kernel_thread_frame row st st' :
  kernel_thread ka row st = Some st' → launch_frame ka st st'.
Proof.
  unfold kernel_thread. intros Hrun.
  destruct (row <? K.nnz ka)%Z; [|simplify_eq; apply launch_frame_refl].
  destruct (lookupZ (epoch_of_next_sample st) row) as [next|];
    simpl in Hrun; [|done].
  destruct (Qle_bool next _); [|simplify_eq; apply launch_frame_refl].
  destruct (lookupZ (K.head ka) row) as [j|]; simpl in Hrun; [|done].
  destruct (lookupZ (K.tail ka) row) as [k|]; simpl in Hrun; [|done].
  destruct (rdist _ _ _ _) as [d2|]; simpl in Hrun; [|done].
  destruct (for_range _ _ st) as [st1|] eqn:E1; simpl in Hrun; [|done].
  destruct (lookupZ (K.epochs_per_sample ka) row) as [eps|];
    simpl in Hrun; [|done].
  destruct (bump_next_sample row eps st1) as [st2|] eqn:E2;
    simpl in Hrun; [|done].
  destruct (lookupZ (epoch_of_next_negative_sample st2) row) as [nn|];
    simpl in Hrun; [|done].
  destruct (lookupZ (K.epochs_per_negative_sample ka) row) as [epns|];
    simpl in Hrun; [|done].
  destruct (for_range _ _ st2) as [st3|] eqn:E3; simpl in Hrun; [|done].
  apply bump_next_negative_sample_adds in Hrun as (Ha & Hm & _).
  apply bump_next_sample_adds in E2 as (Ha2 & Hm2 & _).
  eapply launch_frame_trans; [|by apply launch_frame_same].
  eapply launch_frame_trans.
  { eapply for_range_rel;
      [apply launch_frame_refl|apply launch_frame_trans| |exact E1].
    intros ???. by apply attractive_update_frame. }
  eapply launch_frame_trans; [by apply launch_frame_same|].
  eapply for_range_rel;
    [apply launch_frame_refl|apply launch_frame_trans| |exact E3].
  intros ???. by apply negative_draw_launch_frame.
Qed.

(** X13: one launch writes only into the buffer of the head embedding
    and, with [move_other], that of the tail embedding: every [atomicAdd]
    targets one of them, every other buffer is as before, and no buffer
    changes its length.  Without [move_other] a tail embedding in a buffer
    of its own is therefore the same after the launch. *)
Theorem kernel_frame TPB_X st st' :
  optimize_batch_kernel ka TPB_X st = Some st' →
  (∃ new, adds st' = adds st ++ new ∧
          Forall (λ ev,
                    base ev.1 = base (K.head_embedding ka) ∨
                    (K.move_other ka = true ∧
                     base ev.1 = base (K.tail_embedding ka))) new) ∧
  (∀ b, b ≠ base (K.head_embedding ka) →
        (K.move_other ka = false ∨ b ≠ base (K.tail_embedding ka)) →
        mem st' !! b = mem st !! b) ∧
  (∀ b, length <$> mem st' !! b = length <$> mem st !! b).
Proof.
  unfold optimize_batch_kernel. intros Hrun.
  assert (launch_frame ka st st') as (Hadds & Hmem & Hlen).
  { eapply for_range_rel;
      [apply launch_frame_refl|apply launch_frame_trans| |exact Hrun].
    intros ???. apply kernel_thread_frame. }
  split; [done|]. split; [|done].
  intros b Hh Ht. apply Hmem. intros [?|[Hm ?]]; [done|].
  destruct Ht as [Ht|Ht]; [congruence|done].
Qed.
End Launch.

Section Stages.
Context `{Externals}.
Variable ka : kernel_args.

Local Abbreviation nc := (ML.n_components (K.params ka)).

Lemma repulsive_update_current coeff current negative_sample d st st' :
  repulsive_update ka coeff current negative_sample d st = Some st' →
  ∃ v, atomicAdd (ptr_add current d) v st = Some st'.
Proof.
  unfold repulsive_update. intros Hrun.
  match type of Hrun with (mbind _ ?e = _) => destruct e as [g|] end;
    simpl in Hrun; [|done].
  eauto.
Qed.

(** X14: a negative draw writes to the current row only: each of its
    [atomicAdd] calls targets a cell [current + d] with
    [0 <= d < n_components], and every cell outside the current row, the
    sampled candidate's included, keeps its value. *)
Theorem negative_draw_writes_current row j current p st st' :
  negative_draw ka row j current p st = Some st' →
  (∃ new, adds st' = adds st ++ new ∧
          Forall (λ ev, ∃ d, (0 ≤ d < nc)%Z ∧ ev.1 = ptr_add current d) new) ∧
  ∀ q, (∀ d, (0 ≤ d < nc)%Z → q ≠ ptr_add current d) →
       load (mem st') q = load (mem st) q.
Proof.
  set (R := λ s s' : kstate,
         adds_extend
           (λ ev, ∃ d, (0 ≤ d < nc)%Z ∧ ev.1 = ptr_add current d) s s' ∧
         ∀ q, (∀ d, (0 ≤ d < nc)%Z → q ≠ ptr_add current d) →
              load (mem s') q = load (mem s) q).
  assert (∀ s, R s s) as Hrefl.
  { intros s. split; [apply adds_extend_refl|done]. }
  assert (∀ s1 s2 s3, R s1 s2 → R s2 s3 → R s1 s3) as Htrans.
  { intros s1 s2 s3 [A1 M1] [A2 M2]. split.
    - by eapply adds_extend_trans.
    - intros q Hq. by rewrite M2, M1. }
  assert (∀ coeff negative_sample s s',
            for_range nc (repulsive_update ka coeff current negative_sample) s
              = Some s' → R s s') as Hloop.
  { intros coeff ns s s' Hrun. unfold for_range in Hrun.
    eapply (for_loop_rel_range R); [done|done| |exact Hrun].
    intros d t t' Hd Hupd.
    apply repulsive_update_current in Hupd as [v Hadd]. split.
    - eapply atomicAdd_extend; [|done]. exists d. split; [lia|done].
    - intros q Hq. rewrite (load_atomicAdd _ _ _ _ q Hadd).
      rewrite decide_False; [done|]. apply Hq. lia. }
  intros Hrun. change (R st st'). unfold negative_draw in Hrun.
  destruct (K.tail_n ka =? 0)%Z; [done|].
  match type of Hrun with (mbind _ ?e = _) => destruct e as [d2|] end;
    simpl in Hrun; [|done].
  destruct (Qltb 0 d2); [by eapply Hloop|].
  destruct (_ =? _)%Z; [by simplify_eq|by eapply Hloop].
Qed.

End Stages.

(** ** The driver and the launcher, at their edges *)

Lemma device_buffer_length n : length (device_buffer n) = Z.to_nat n.
Proof. unfold device_buffer. apply length_replicate. Qed.

Lemma unaryOp_full out inp len op res :
  unaryOp out inp len op = Some res →
  length out = Z.to_nat len →
  res = op <$> take (Z.to_nat len) inp.
Proof.
  unfold unaryOp. intros Hrun Hlen.
  destruct (_ && _); [|done]. simplify_eq.
  rewrite drop_ge by lia. by rewrite app_nil_r.
Qed.

Section DriverEdges.
Context `{Externals}.
Variable TPB_X : Z.
Variable la : layout_args.

Lemma optimize_layout_init_is_Some m :
  (L.nnz la ≤ Z.of_nat (length (L.epochs_per_sample la)))%Z →
  ∃ epnsl s0,
    epochs_per_negative_sample_of la = Some epnsl ∧
    optimize_layout_init la m = Some s0 ∧
    mem (ks s0) = m ∧ adds (ks s0) = [] ∧ launches s0 = [] ∧
    alpha s0 = ML.initial_alpha (L.params la) ∧
    epoch_of_next_sample (ks s0)
      = take (Z.to_nat (L.nnz la)) (L.epochs_per_sample la).
Proof.
  intros Hlen.
  assert (L.nnz la ≤ Z.of_nat (length (device_buffer (L.nnz la))))%Z as Hbuf
    by (rewrite device_buffer_length; lia).
  destruct (unaryOp_is_Some (device_buffer (L.nnz la))
              (L.epochs_per_sample la) (L.nnz la)
              (λ input, input /
                 inject_Z (ML.negative_sample_rate (L.params la)))
              Hlen Hbuf) as [epnsl He].
  assert (length epnsl = Z.to_nat (L.nnz la)) as Hl.
  { rewrite (unaryOp_length _ _ _ _ _ He). apply device_buffer_length. }
  destruct (unaryOp_is_Some (device_buffer (L.nnz la)) epnsl (L.nnz la)
              (λ x, x) ltac:(lia) Hbuf) as [nn Hnn].
  destruct (unaryOp_is_Some (device_buffer (L.nnz la))
              (L.epochs_per_sample la) (L.nnz la) (λ x, x) Hlen Hbuf)
    as [nx Hnx].
  exists epnsl. eexists. split; [exact He|].
  unfold optimize_layout_init, epochs_per_negative_sample_of, copy in *.
  rewrite He. simpl. rewrite Hnn. simpl. rewrite Hnx. simpl.
  split; [done|]. simpl. do 4 (split; [done|]).
  rewrite (unaryOp_full _ _ _ _ _ Hnx (device_buffer_length _)).
  apply list_fmap_id.
Qed.

(** Epoch 0 of a run with a positive schedule and no callback: the
    launch finds no edge due. *)
Lemma epoch0_step m epnsl s0 :
  ML.callback (L.params la) = None →
  (L.nnz la ≤ Z.of_nat (length (L.epochs_per_sample la)))%Z →
  (∀ row, (0 ≤ row < L.nnz la)%Z →
     ∃ x, lookupZ (L.epochs_per_sample la) row = Some x ∧ 0 < x) →
  optimize_layout_init la m = Some s0 →
  optimize_layout_epoch TPB_X la epnsl 0 s0 =
    Some {| ks := ks s0;
            alpha := ML.initial_alpha (L.params la) *
                     (1 - inject_Z 0 / inject_Z (L.n_epochs la));
            launches := launches s0 ++ [launch_args la epnsl 0 (alpha s0)] |}.
Proof.
  intros Hcb Hlen Hpos H0.
  destruct (optimize_layout_init_is_Some m Hlen)
    as (epnsl' & s0' & _ & H0' & _ & _ & _ & _ & Hnext).
  rewrite H0 in H0'. simplify_eq.
  unfold optimize_layout_epoch. rewrite kernel_idle; [by rewrite Hcb|].
  simpl. intros row Hrow.
  destruct (Hpos row Hrow) as (x & Hx & Hx0).
  exists x. split; [|done].
  apply lookupZ_Some in Hx as [_ Hx]. apply lookupZ_Some.
  split; [lia|]. rewrite Hnext, lookup_take_lt by lia. done.
Qed.

(** X16: with no callback and a schedule whose entries are all positive,
    no edge is due at epoch 0: the first epoch changes neither the
    embedding nor a counter, and a run with [n_epochs = 1] returns the
    device memory it was given. *)
Theorem first_epoch_idle m :
  ML.callback (L.params la) = None →
  (L.nnz la ≤ Z.of_nat (length (L.epochs_per_sample la)))%Z →
  (∀ row, (0 ≤ row < L.nnz la)%Z →
     ∃ x, lookupZ (L.epochs_per_sample la) row = Some x ∧ 0 < x) →
  ∃ s0 s1,
    optimize_layout_steps TPB_X la 0 m = Some s0 ∧
    optimize_layout_steps TPB_X la 1 m = Some s1 ∧
    ks s1 = ks s0 ∧ mem (ks s1) = m ∧ adds (ks s1) = [] ∧
    length (launches s1) = 1%nat ∧
    (L.n_epochs la = 1%Z → optimize_layout TPB_X la m = Some s1).
Proof.
  intros Hcb Hlen Hpos.
  destruct (optimize_layout_init_is_Some m Hlen)
    as (epnsl & s0 & He & H0 & Hm & Ha & Hl & _ & _).
  pose proof (epoch0_step m epnsl s0 Hcb Hlen Hpos H0) as Hstep.
  exists s0. eexists. unfold optimize_layout, optimize_layout_steps.
  rewrite He, H0. simpl. rewrite Hstep. simpl.
  split; [reflexivity|]. split; [reflexivity|]. simpl.
  split; [done|]. split; [done|]. split; [done|].
  split; [by rewrite Hl|]. intros Hn.
  replace (Z.to_nat (L.n_epochs la)) with 1%nat by lia.
  simpl. by rewrite Hstep.
Qed.

(** X17: a run with [n_epochs <= 0] launches no kernel: it returns the
    device memory it was given, with an empty log. *)
Theorem optimize_layout_no_epoch m :
  (L.n_epochs la ≤ 0)%Z →
  (L.nnz la ≤ Z.of_nat (length (L.epochs_per_sample la)))%Z →
  ∃ s, optimize_layout TPB_X la m = Some s ∧
       mem (ks s) = m ∧ adds (ks s) = [] ∧ launches s = [] ∧
       alpha s = ML.initial_alpha (L.params la).
Proof.
  intros Hn Hlen.
  destruct (optimize_layout_init_is_Some m Hlen)
    as (epnsl & s0 & He & H0 & Hm & Ha & Hl & Hal & _).
  exists s0. unfold optimize_layout, optimize_layout_steps.
  rewrite He, H0. simpl.
  replace (Z.to_nat (L.n_epochs la)) with 0%nat by lia. done.
Qed.
End DriverEdges.

Lemma epochs_per_sample_of_positive (n_epochs : Z) (wm w : Q) :
  (0 < n_epochs)%Z → 0 < w → w <= wm →
  epochs_per_sample_of n_epochs wm w == wm / w ∧
  1 <= epochs_per_sample_of n_epochs wm w.
Proof.
  intros Hn Hpos Hle.
  assert (0 < inject_Z n_epochs) as Hnq.
  { change 0 with (inject_Z 0). by rewrite <-Zlt_Qlt. }
  assert (0 < w / wm) as Hq by (apply Qlt_shift_div_l; lra).
  unfold epochs_per_sample_of. simpl.
  rewrite (proj2 (Qltb_lt 0 (inject_Z n_epochs * (w / wm)))) by nra.
  assert (inject_Z n_epochs / (inject_Z n_epochs * (w / wm)) == wm / w) as He.
  { field. split; [lra|]. split; lra. }
  split; [done|]. rewrite He. apply Qle_shift_div_l; lra.
Qed.

Lemma remove_zeros_vals rows cols vals v :
  v ∈ (λ e, e.2) <$> remove_zeros rows cols vals →
  v ∈ vals ∧ ¬ v == 0.
Proof.
  revert cols vals.
  induction rows as [|r rows IH]; intros [|c cols] [|x vals] Hv;
    simpl in Hv; try by apply elem_of_nil in Hv.
  destruct (Qeq_bool x 0) eqn:E.
  - destruct (IH _ _ Hv). split; [by right|done].
  - simpl in Hv. apply elem_of_cons in Hv as [->|Hv].
    + split; [by left|]. by apply Qeq_bool_neq.
    + destruct (IH _ _ Hv). split; [by right|done].
Qed.

Section LauncherEdges.
Context `{Externals}.
Variable TPB_X : Z.

(** X18: a call of the launcher launches the kernel [n_epochs] times when
    [n_epochs > 0], and otherwise 500 times for [m <= 10000] vertices and
    200 times for more; the launches carry the epochs 0, 1, ... in order,
    the compacted edge list, and [m] as both vertex counts. *)
Theorem launcher_launch_count m n inp params embedding dev inp' s :
  launcher TPB_X m n inp params embedding dev = Some (inp', s) →
  length (launches s) =
    Z.to_nat (if (ML.n_epochs params <=? 0)%Z
              then (if (m <=? 10000)%Z then 500 else 200)
              else ML.n_epochs params) ∧
  ∀ e args,
    lookupZ (launches s) e = Some args →
    K.epoch args = e ∧
    K.head args = COO.rows (coo_remove_zeros inp') ∧
    K.tail args = COO.cols (coo_remove_zeros inp') ∧
    K.nnz args = COO.nnz (coo_remove_zeros inp') ∧
    K.head_n args = m ∧ K.tail_n args = m ∧ K.n_vertices args = m ∧
    K.gamma args = ML.repulsion_strength params ∧
    K.params args = params.
Proof.
  intros Hrun. apply launcher_inv in Hrun as (eps & _ & Hrun).
  unfold optimize_layout in Hrun.
  apply optimize_layout_steps_launches in Hrun as (epns & _ & Hl).
  simpl in Hl. pose proof (effective_n_epochs_pos m params) as Hpos.
  rewrite Z2Nat.id in Hl by lia. split.
  - by rewrite Hl, length_fmap, length_seqZ.
  - intros e args [He Hargs]%lookupZ_Some.
    rewrite Hl, list_lookup_fmap in Hargs.
    destruct (seqZ 0 _ !! Z.to_nat e) as [k|] eqn:Ek; simpl in Hargs; [|done].
    apply lookup_seqZ in Ek as [-> _]. simplify_eq. simpl.
    split; [lia|done].
Qed.

Lemma prune_weight_cases mx n w :
  prune_weight mx n w = 0 ∨ (prune_weight mx n w = w ∧ mx / inject_Z n <= w).
Proof.
  unfold prune_weight. destruct (Qltb w _) eqn:E; [by left|right].
  split; [done|]. by apply Qltb_ge.
Qed.

Lemma launcher_prune_inv m inp params inp' n :
  launcher_prune m inp params = Some (inp', n) →
  ∃ mx,
    max_element (take (Z.to_nat (COO.nnz inp)) (COO.vals inp)) = Some mx ∧
    n = effective_n_epochs m params ∧
    COO.rows inp' = COO.rows inp ∧ COO.cols inp' = COO.cols inp ∧
    COO.nnz inp' = COO.nnz inp ∧
    take (Z.to_nat (COO.nnz inp)) (COO.vals inp')
      = prune_weight mx n <$> take (Z.to_nat (COO.nnz inp)) (COO.vals inp).
Proof.
  unfold launcher_prune. intros Hp.
  destruct (max_element _) as [mx|] eqn:Em; simpl in Hp; [|done].
  destruct (unaryOp _ _ _ _) as [vals|] eqn:Eu; simpl in Hp; [|done].
  simplify_eq. simpl. exists mx. do 5 (split; [done|]).
  unfold unaryOp in Eu. destruct (_ && _) eqn:E; [|done]. simplify_eq.
  apply andb_true_iff in E as [E1 _]. apply Z.leb_le in E1.
  rewrite take_app_le by (rewrite length_fmap, length_take; lia).
  rewrite take_ge; [done|]. rewrite length_fmap, length_take. lia.
Qed.

(** X19: when the largest weight is positive, the thresholding never
    zeroes it: the largest weight after the thresholding equals the
    largest weight before, and every weight it leaves among the first
    [nnz] is 0 or at least [max_weight / n_epochs]. *)
Theorem launcher_prune_keeps_max m inp params inp' n max_weight :
  launcher_prune m inp params = Some (inp', n) →
  max_element (take (Z.to_nat (COO.nnz inp)) (COO.vals inp))
    = Some max_weight →
  0 < max_weight →
  (∃ wm', max_element (take (Z.to_nat (COO.nnz inp)) (COO.vals inp'))
            = Some wm' ∧ wm' == max_weight) ∧
  ∀ w, w ∈ take (Z.to_nat (COO.nnz inp)) (COO.vals inp') →
       w = 0 ∨ max_weight / inject_Z n <= w.
Proof.
  intros Hp Em Hpos.
  apply launcher_prune_inv in Hp as (mx & Em' & -> & _ & _ & _ & Ht).
  rewrite Em in Em'. simplify_eq. rewrite Ht.
  set (l := take (Z.to_nat (COO.nnz inp)) (COO.vals inp)) in *.
  set (ne := effective_n_epochs m params).
  pose proof (effective_n_epochs_pos m params) as Hne. fold ne in Hne.
  assert (1 <= inject_Z ne) as Hneq.
  { change 1 with (inject_Z 1). rewrite <-Zle_Qle. lia. }
  destruct (max_element_spec l) as (mx' & Emx & Hin & Hall).
  { intros Hnil. by rewrite Hnil in Em. }
  rewrite Em in Emx. simplify_eq.
  assert (prune_weight mx' ne mx' = mx') as Hkeep.
  { unfold prune_weight.
    rewrite (proj2 (Qltb_ge mx' (mx' / inject_Z ne))); [done|].
    apply Qle_shift_div_r; [lra|]. nra. }
  split.
  - destruct (max_element_spec (prune_weight mx' ne <$> l))
      as (wm' & Ewm & Hin' & Hall').
    { intros Hnil. apply fmap_nil_inv in Hnil. by rewrite Hnil in Em. }
    exists wm'. split; [done|].
    apply list_elem_of_fmap in Hin' as (y & -> & Hy).
    assert (mx' <= prune_weight mx' ne y) as Hge.
    { apply Hall'. apply list_elem_of_fmap. by exists mx'. }
    pose proof (Hall y Hy) as Hle.
    destruct (prune_weight_cases mx' ne y) as [Hz|[Hz _]]; rewrite Hz in *; lra.
  - intros w (y & -> & Hy)%list_elem_of_fmap.
    destruct (prune_weight_cases mx' ne y) as [Hz|[Hz Hge]]; [by left|right].
    by rewrite Hz.
Qed.

End LauncherEdges.

Section SingleEpoch.
Context `{Externals}.
Variable TPB_X : Z.

Lemma launcher_schedule_inv m n inp params embedding dev inp' s :
  launcher TPB_X m n inp params embedding dev = Some (inp', s) →
  (∀ w, w ∈ take (Z.to_nat (COO.nnz inp)) (COO.vals inp) → 0 <= w) →
  ∃ eps,
    optimize_layout TPB_X
      (launcher_layout_args m (coo_remove_zeros inp') eps params
         (effective_n_epochs m params) embedding) dev = Some s ∧
    Z.of_nat (length eps) = COO.nnz (coo_remove_zeros inp') ∧
    ∀ row e, lookupZ eps row = Some e → 1 <= e.
Proof.
  intros Hrun Hnn. unfold launcher in Hrun.
  destruct (launcher_prune m inp params) as [[inp1 ne]|] eqn:Ep;
    simpl in Hrun; [|done].
  destruct (make_epochs_per_sample _ _ _ _) as [eps|] eqn:Em;
    simpl in Hrun; [|done].
  destruct (optimize_layout _ _ _) as [s1|] eqn:Eo; simpl in Hrun; [|done].
  simplify_eq.
  apply launcher_prune_inv in Ep as (mx & Emx & -> & _ & _ & Hnnz & Ht).
  exists eps. split; [done|].
  set (out := coo_remove_zeros inp') in *.
  assert (∀ v, v ∈ COO.vals out → 0 < v) as Hout.
  { intros v Hv. unfold out, coo_remove_zeros in Hv. simpl in Hv.
    apply remove_zeros_vals in Hv as [Hv Hnz].
    rewrite Hnnz, Ht in Hv.
    apply list_elem_of_fmap in Hv as (y & -> & Hy).
    pose proof (Hnn y Hy) as Hy0.
    destruct (prune_weight_cases mx (effective_n_epochs m params) y)
      as [Hz|[Hz _]]; rewrite Hz in *; [by destruct Hnz|].
    destruct (Qlt_le_dec 0 y) as [?|Hle]; [done|].
    destruct Hnz. lra. }
  assert (COO.nnz out = Z.of_nat (length (COO.vals out))) as Hlen.
  { unfold out, coo_remove_zeros. simpl. by rewrite length_fmap. }
  assert (length eps = length (COO.vals out)) as Hleps.
  { unfold make_epochs_per_sample in Em.
    match type of Em with (mbind _ ?x = _) => destruct x end;
      simpl in Em; [|done].
    rewrite (unaryOp_length _ _ _ _ _ Em), device_buffer_length.
    rewrite Nat2Z.id. unfold out, coo_remove_zeros. simpl.
    by rewrite length_fmap. }
  split; [lia|]. intros row e He.
  apply lookupZ_Some in He as [Hrow He].
  pose proof (lookup_lt_Some _ _ _ He) as Hlt.
  destruct (lookup_lt_is_Some_2 (COO.vals out) (Z.to_nat row) ltac:(lia))
    as [w Hw].
  assert (lookupZ (COO.vals out) row = Some w) as Hw'
    by (by apply lookupZ_Some).
  assert (0 ≤ row < COO.nnz out)%Z as Hrow' by lia.
  destruct (make_epochs_per_sample_inv _ _ _ _ _ row w Em Hrow' Hw')
    as (wm & _ & _ & _ & Hle & Hres).
  apply lookupZ_Some in Hres as [_ Hres]. rewrite He in Hres. simplify_eq.
  apply epochs_per_sample_of_positive.
  - apply effective_n_epochs_pos.
  - apply Hout. apply list_elem_of_lookup. eauto.
  - done.
Qed.

(** X20: when no weight of the caller's edge list is negative, every
    entry of the schedule that a call of the launcher passes to the
    kernel is at least 1: the sentinel [-1] does not occur. *)
Theorem launcher_schedule_positive m n inp params embedding dev inp' s :
  launcher TPB_X m n inp params embedding dev = Some (inp', s) →
  (∀ w, w ∈ take (Z.to_nat (COO.nnz inp)) (COO.vals inp) → 0 <= w) →
  ∀ args row e,
    args ∈ launches s →
    lookupZ (K.epochs_per_sample args) row = Some e →
    1 <= e.
Proof.
  intros Hrun Hnn args row e Hargs He.
  destruct (launcher_schedule_inv _ _ _ _ _ _ _ _ Hrun Hnn)
    as (eps & Eo & _ & Hge).
  unfold optimize_layout in Eo.
  apply optimize_layout_steps_launches in Eo as (epns & _ & Hl).
  rewrite Hl in Hargs. apply list_elem_of_fmap in Hargs as (k & -> & _).
  simpl in He. by eapply Hge.
Qed.

(** X21: a call of the launcher with [n_epochs = 1], no callback and no
    negative weight makes its one launch at epoch 0, where no edge is due:
    it returns the device memory it was given, and no [atomicAdd] is
    made. *)
Theorem launcher_single_epoch_idle m n inp params embedding dev inp' s :
  launcher TPB_X m n inp params embedding dev = Some (inp', s) →
  ML.n_epochs params = 1%Z →
  ML.callback params = None →
  (∀ w, w ∈ take (Z.to_nat (COO.nnz inp)) (COO.vals inp) → 0 <= w) →
  mem (ks s) = dev ∧ adds (ks s) = [] ∧ length (launches s) = 1%nat.
Proof.
  intros Hrun Hn Hcb Hnn.
  destruct (launcher_schedule_inv _ _ _ _ _ _ _ _ Hrun Hnn)
    as (eps & Eo & Hlen & Hge).
  assert (effective_n_epochs m params = 1%Z) as Hne
    by (unfold effective_n_epochs; by rewrite Hn).
  rewrite Hne in Eo.
  set (la := launcher_layout_args m (coo_remove_zeros inp') eps params 1
               embedding) in *.
  assert (L.nnz la ≤ Z.of_nat (length (L.epochs_per_sample la)))%Z as Hlen'.
  { unfold la, launcher_layout_args. cbn [L.nnz L.epochs_per_sample]. lia. }
  destruct (optimize_layout_init_is_Some la dev Hlen')
    as (epnsl & s0 & He & H0 & Hm & Ha & Hl & _ & _).
  assert (optimize_layout_epoch TPB_X la epnsl 0 s0 =
            Some {| ks := ks s0;
                    alpha := ML.initial_alpha (L.params la) *
                             (1 - inject_Z 0 / inject_Z (L.n_epochs la));
                    launches :=
                      launches s0 ++ [launch_args la epnsl 0 (alpha s0)] |})
    as Hstep.
  { apply (epoch0_step TPB_X la dev epnsl s0); [done|done| |done].
    unfold la, launcher_layout_args. cbn [L.nnz L.epochs_per_sample].
    intros row Hrow.
    destruct (lookup_lt_is_Some_2 eps (Z.to_nat row) ltac:(lia)) as [x Hx].
    assert (lookupZ eps row = Some x) as Hx'
      by (apply lookupZ_Some; split; [lia|done]).
    exists x. split; [done|]. pose proof (Hge row x Hx'). lra. }
  unfold optimize_layout, optimize_layout_steps in Eo.
  rewrite He, H0 in Eo. simpl in Eo. rewrite Hstep in Eo. simpl in Eo.
  injection Eo as <-. simpl. by rewrite Hl.
Qed.
End SingleEpoch.

(** ** The scheduling counters on a call of the launcher *)

Lemma epochs_per_sample_of_same_sign (n_epochs : Z) (wm w : Q) :
  (0 < n_epochs)%Z → (0 < w ∧ 0 < wm) ∨ (w < 0 ∧ wm < 0) →
  0 < epochs_per_sample_of n_epochs wm w.
Proof.
  intros Hn Hs.
  assert (0 < inject_Z n_epochs) as Hnq.
  { change 0 with (inject_Z 0). by rewrite <-Zlt_Qlt. }
  assert (0 < w / wm) as Hq.
  { destruct Hs as [[Hw Hwm]|[Hw Hwm]].
    - apply Qlt_shift_div_l; lra.
    - assert (w / wm == (- w) / (- wm)) as -> by (field; lra).
      apply Qlt_shift_div_l; lra. }
  unfold epochs_per_sample_of. simpl.
  rewrite (proj2 (Qltb_lt 0 (inject_Z n_epochs * (w / wm)))) by nra.
  apply Qlt_shift_div_l; nra.
Qed.

Section LauncherCounters.
Context `{Externals}.
Variable TPB_X : Z.

(** The schedule that a call of the launcher builds has one entry for each
    edge of the compacted list, and each entry is positive: an edge that
    the compaction keeps has a weight that is not zero and lies between
    the threshold and the largest weight, so that all kept weights have
    the same sign. *)
Lemma launcher_schedule_entries m n inp params embedding dev inp' s :
  launcher TPB_X m n inp params embedding dev = Some (inp', s) →
  ∃ eps,
    make_epochs_per_sample (COO.vals (coo_remove_zeros inp'))
      (COO.nnz (coo_remove_zeros inp')) (effective_n_epochs m params)
      (device_buffer (COO.nnz (coo_remove_zeros inp'))) = Some eps ∧
    optimize_layout TPB_X
      (launcher_layout_args m (coo_remove_zeros inp') eps params
         (effective_n_epochs m params) embedding) dev = Some s ∧
    Z.of_nat (length eps) = COO.nnz (coo_remove_zeros inp') ∧
    ∀ row e, lookupZ eps row = Some e → 0 < e.
Proof.
  intros Hrun. unfold launcher in Hrun.
  destruct (launcher_prune m inp params) as [[inp1 ne]|] eqn:Ep;
    simpl in Hrun; [|done].
  destruct (make_epochs_per_sample _ _ _ _) as [eps|] eqn:Em;
    simpl in Hrun; [|done].
  destruct (optimize_layout _ _ _) as [s1|] eqn:Eo; simpl in Hrun; [|done].
  simplify_eq.
  apply launcher_prune_inv in Ep as (mx & Emx & -> & _ & _ & Hnnz & Ht).
  exists eps. split; [done|]. split; [done|].
  set (out := coo_remove_zeros inp') in *.
  set (ne := effective_n_epochs m params) in *.
  pose proof (effective_n_epochs_pos m params) as Hne. fold ne in Hne.
  assert (1 <= inject_Z ne) as Hneq.
  { change 1 with (inject_Z 1). rewrite <-Zle_Qle. lia. }
  destruct (max_element_spec (take (Z.to_nat (COO.nnz inp)) (COO.vals inp)))
    as (mx' & Emx' & _ & Hall).
  { intros Hnil. by rewrite Hnil in Emx. }
  rewrite Emx in Emx'. simplify_eq.
  assert (∀ v, v ∈ COO.vals out →
            ¬ v == 0 ∧ mx' / inject_Z ne <= v ∧ v <= mx') as Hout.
  { intros v Hv. unfold out, coo_remove_zeros in Hv. simpl in Hv.
    apply remove_zeros_vals in Hv as [Hv Hnz].
    rewrite Hnnz, Ht in Hv.
    apply list_elem_of_fmap in Hv as (y & -> & Hy).
    pose proof (Hall y Hy) as Hle.
    destruct (prune_weight_cases mx' ne y) as [Hz|[Hz Hge]]; rewrite Hz in *.
    - by destruct Hnz.
    - done. }
  assert (∀ v w, v ∈ COO.vals out → w ∈ COO.vals out →
            (0 < v ∧ 0 < w) ∨ (v < 0 ∧ w < 0)) as Hsign.
  { intros v w Hv Hw.
    destruct (Hout v Hv) as (Hv0 & Hv1 & Hv2).
    destruct (Hout w Hw) as (Hw0 & Hw1 & Hw2).
    destruct (Qlt_le_dec 0 mx') as [Hpos|Hneg].
    - assert (0 < mx' / inject_Z ne) by (apply Qlt_shift_div_l; lra).
      left. lra.
    - right. split.
      + destruct (Qlt_le_dec v 0) as [?|?]; [done|]. destruct Hv0. lra.
      + destruct (Qlt_le_dec w 0) as [?|?]; [done|]. destruct Hw0. lra. }
  assert (COO.nnz out = Z.of_nat (length (COO.vals out))) as Hlen.
  { unfold out, coo_remove_zeros. simpl. by rewrite length_fmap. }
  assert (length eps = length (COO.vals out)) as Hleps.
  { unfold make_epochs_per_sample in Em.
    match type of Em with (mbind _ ?x = _) => destruct x end;
      simpl in Em; [|done].
    rewrite (unaryOp_length _ _ _ _ _ Em), device_buffer_length.
    rewrite Nat2Z.id. unfold out, coo_remove_zeros. simpl.
    by rewrite length_fmap. }
  split; [lia|]. intros row e He.
  apply lookupZ_Some in He as [Hrow He].
  pose proof (lookup_lt_Some _ _ _ He) as Hlt.
  destruct (lookup_lt_is_Some_2 (COO.vals out) (Z.to_nat row) ltac:(lia))
    as [w Hw].
  assert (lookupZ (COO.vals out) row = Some w) as Hw'
    by (by apply lookupZ_Some).
  assert (0 ≤ row < COO.nnz out)%Z as Hrow' by lia.
  destruct (make_epochs_per_sample_inv _ _ _ _ _ row w Em Hrow' Hw')
    as (wm & _ & Hwm & _ & _ & Hres).
  apply lookupZ_Some in Hres as [_ Hres]. rewrite He in Hres. simplify_eq.
  apply epochs_per_sample_of_same_sign; [done|].
  apply Hsign.
  - apply list_elem_of_lookup. eauto.
  - eapply subseteq_take, Hwm.
Qed.

(** C3: on every call of the launcher, with the schedule
    [epochs_per_sample] that it builds from the compacted edge list: for
    every edge of that list and all numbers of epochs
    [k1 <= k2 <= n_epochs], the counters [epoch_of_next_sample[edge]] and
    [epoch_of_next_negative_sample[edge]] start (after 0 epochs) at
    [epochs_per_sample[edge]] and [epochs_per_negative_sample[edge]], and
    their values after [k1] epochs are not above their values after [k2]
    epochs. *)
Theorem launcher_counters_monotone m n inp params embedding dev inp' s :
  launcher TPB_X m n inp params embedding dev = Some (inp', s) →
  ∃ epochs_per_sample epochs_per_negative_sample,
    let out := coo_remove_zeros inp' in
    let la :=
      launcher_layout_args m out epochs_per_sample
        params (effective_n_epochs m params) embedding in
    make_epochs_per_sample (COO.vals out) (COO.nnz out)
      (effective_n_epochs m params) (device_buffer (COO.nnz out))
      = Some epochs_per_sample ∧
    optimize_layout TPB_X la dev = Some s ∧
    epochs_per_negative_sample_of la = Some epochs_per_negative_sample ∧
    ∀ row, (0 ≤ row < COO.nnz out)%Z →
      ∃ eps epns,
        lookupZ epochs_per_sample row = Some eps ∧
        lookupZ epochs_per_negative_sample row = Some epns ∧
        (∃ s0, optimize_layout_steps TPB_X la 0 dev = Some s0 ∧
               counters_at (ks s0) row = Some (eps, epns)) ∧
        ∀ k1 k2 : nat,
          (k1 ≤ k2)%nat → (k2 ≤ Z.to_nat (L.n_epochs la))%nat →
          ∃ s1 s2 c1 c2,
            optimize_layout_steps TPB_X la k1 dev = Some s1 ∧
            optimize_layout_steps TPB_X la k2 dev = Some s2 ∧
            counters_at (ks s1) row = Some c1 ∧
            counters_at (ks s2) row = Some c2 ∧
            c1.1 <= c2.1 ∧ c1.2 <= c2.2.
Proof.
  intros Hrun.
  destruct (launcher_schedule_entries _ _ _ _ _ _ _ _ Hrun)
    as (epsl & Em & Eo & Hlen & Hpos).
  exists epsl.
  set (la := launcher_layout_args m (coo_remove_zeros inp') epsl params
               (effective_n_epochs m params) embedding) in *.
  assert (∃ epnsl, epochs_per_negative_sample_of la = Some epnsl)
    as [epnsl Ee].
  { unfold optimize_layout, optimize_layout_steps in Eo.
    destruct (epochs_per_negative_sample_of la) as [epnsl|]; [|done].
    by exists epnsl. }
  exists epnsl. cbv zeta. fold la. split; [done|]. split; [done|].
  split; [done|]. intros row Hrow.
  change (COO.nnz (coo_remove_zeros inp')) with (L.nnz la) in Hrow.
  assert (L.nnz la = Z.of_nat (length epsl)) as Hnnz.
  { unfold la, launcher_layout_args. cbn [L.nnz]. lia. }
  destruct (lookup_lt_is_Some_2 epsl (Z.to_nat row) ltac:(lia)) as [eps Heps].
  assert (lookupZ (L.epochs_per_sample la) row = Some eps) as Heps'.
  { apply lookupZ_Some. split; [lia|done]. }
  assert (0 <= eps) as Hnn.
  { apply Qlt_le_weak. by apply (Hpos row). }
  destruct (optimize_layout_steps_prefix TPB_X la dev 0
              (Z.to_nat (L.n_epochs la)) s ltac:(lia) Eo) as [s0 E0].
  assert (∃ epns, lookupZ epnsl row = Some epns ∧
                  counters_at (ks s0) row = Some (eps, epns))
    as (epns & Hepns & Hc0).
  { exists (eps / inject_Z (ML.negative_sample_rate (L.params la))).
    unfold optimize_layout_steps in E0. rewrite Ee in E0. simpl in E0.
    destruct (optimize_layout_init la dev) as [s0'|] eqn:Ei;
      simpl in E0; [|done].
    simplify_eq.
    by apply (optimize_layout_init_counters la dev s0 epnsl row eps). }
  exists eps, epns. split; [done|]. split; [done|].
  split; [by exists s0|].
  intros k1 k2 Hk Hk2.
  destruct (optimize_layout_steps_prefix TPB_X la dev k2
              (Z.to_nat (L.n_epochs la)) s Hk2 Eo) as [s2 E2].
  destruct (optimize_layout_steps_prefix TPB_X la dev k1 k2 s2 Hk E2)
    as [s1 E1].
  destruct (layout_counters_monotone TPB_X la dev row eps k1 k2 s1 s2
              Hrow Heps' Hnn Hk E1 E2) as (_ & c1 & c2 & Hc1 & Hc2 & Hx & Hy).
  by exists s1, s2, c1, c2.
Qed.
End LauncherCounters.

(** * Further concrete runs *)

Lemma pow_int_square (z : Q) : pow_int z 2 = z * z.
Proof. reflexivity. Qed.

Lemma clip_idempotent_monotone_witness :
  (∀ v, -4 <= v <= 4 → clip v (-4) 4 = v) ∧
  (∀ v, clip (clip v (-4) 4) (-4) 4 = clip v (-4) 4) ∧
  (∀ v w, v <= w → clip v (-4) 4 <= clip w (-4) 4).
Proof.
  apply (clip_idempotent_monotone (-4) 4). by vm_compute.
Defined.

Lemma attractive_grad_nonpos_witness :
  @attractive_grad env0 1 params0 <= 0.
Proof.
  apply (@attractive_grad_nonpos env0 1 params0); by vm_compute.
Defined.

Lemma rdist_nonneg_self_witness :
  @rdist env0 dev0 emb0 (ptr_add emb0 2) 2 = Some 100 ∧
  ((∀ z, 0 <= @pow env0 z 2) → 0 <= 100) ∧
  ((∀ z, z == 0 → @pow env0 z 2 == 0) → emb0 = ptr_add emb0 2 → 100 == 0).
Proof.
  split; [reflexivity|].
  apply (@rdist_nonneg_self env0 dev0 emb0 (ptr_add emb0 2) 2 100).
  reflexivity.
Defined.

Lemma negative_draw_self_witness :
  lookupZ (K.head args_self) 0 = Some 1%Z ∧
  @negative_candidate env0 args_self 0 0 = 1%Z ∧
  @negative_draw env0 args_self 0 1 (ptr_add emb0 2) 0 st0 = Some st0.
Proof.
  split; [reflexivity|]. split; [reflexivity|].
  apply (@negative_draw_self env0 args_self 0 1 0 st0).
  - intros z Hz. simpl. rewrite pow_int_square, Hz. reflexivity.
  - by vm_compute.
  - reflexivity.
  - intros d Hd.
    assert (d = 0 ∨ d = 1)%Z as [-> | ->] by (cbn in Hd; lia);
      vm_compute; eauto.
Defined.

Lemma make_epochs_per_sample_sentinel_witness :
  make_epochs_per_sample [0; 1] 2 2 (device_buffer 2) = Some [-1; 2 # 2] ∧
  lookupZ [-1; 2 # 2] 0 = Some (-1).
Proof.
  split; [reflexivity|].
  apply (make_epochs_per_sample_sentinel [0; 1] 2 2 (device_buffer 2)
           [-1; 2 # 2] 0 0 1).
  - reflexivity.
  - reflexivity.
  - reflexivity.
  - lia.
  - lia.
  - reflexivity.
  - by vm_compute.
Defined.

Lemma kernel_idle_witness :
  @optimize_batch_kernel env0 args_idle 2 st0 = Some st0.
Proof.
  apply (@kernel_idle env0 args_idle 2 st0).
  intros row Hrow. exists 1.
  assert (row = 0 ∨ row = 1)%Z as [-> | ->] by (simpl in Hrow; lia);
    split; reflexivity.
Defined.

Lemma kernel_thread_owns_counters_witness :
  ∃ st',
    @kernel_thread env0 args0 0 st0 = Some st' ∧
    lookupZ (epoch_of_next_sample st') 0 = Some 2 ∧
    lookupZ (epoch_of_next_sample st') 1
      = lookupZ (epoch_of_next_sample st0) 1 ∧
    lookupZ (epoch_of_next_negative_sample st') 1
      = lookupZ (epoch_of_next_negative_sample st0) 1.
Proof.
  eexists. split; [vm_compute; reflexivity|].
  split; [reflexivity|].
  eapply (@kernel_thread_owns_counters env0 args0 0 st0 _ 1).
  - vm_compute. reflexivity.
  - lia.
Defined.

Lemma kernel_frame_witness :
  ∃ st',
    @optimize_batch_kernel env0 args0 2 st0 = Some st' ∧
    (∃ new, adds st' = adds st0 ++ new ∧
            Forall (λ ev,
                      base ev.1 = base (K.head_embedding args0) ∨
                      (K.move_other args0 = true ∧
                       base ev.1 = base (K.tail_embedding args0))) new) ∧
    (∀ b, b ≠ base (K.head_embedding args0) →
          (K.move_other args0 = false ∨ b ≠ base (K.tail_embedding args0)) →
          mem st' !! b = mem st0 !! b) ∧
    (∀ b, length <$> mem st' !! b = length <$> mem st0 !! b).
Proof.
  eexists. split; [vm_compute; reflexivity|].
  apply (@kernel_frame env0 args0 2 st0).
  vm_compute. reflexivity.
Defined.

Lemma negative_draw_writes_current_witness :
  ∃ st',
    @negative_draw env0 args0 0 0 emb0 0 st1 = Some st' ∧
    (∃ new, adds st' = adds st1 ++ new ∧
            Forall (λ ev, ∃ d, (0 ≤ d < 2)%Z ∧ ev.1 = ptr_add emb0 d) new) ∧
    ∀ q, (∀ d, (0 ≤ d < 2)%Z → q ≠ ptr_add emb0 d) →
         load (mem st') q = load (mem st1) q.
Proof.
  eexists. split; [vm_compute; reflexivity|].
  apply (@negative_draw_writes_current env0 args0 0 0 emb0 0 st1).
  vm_compute. reflexivity.
Defined.

Lemma first_epoch_idle_witness :
  ∃ s0 s1,
    @optimize_layout_steps env0 2 la0 0 dev0 = Some s0 ∧
    @optimize_layout_steps env0 2 la0 1 dev0 = Some s1 ∧
    ks s1 = ks s0 ∧ mem (ks s1) = dev0 ∧ adds (ks s1) = [] ∧
    length (launches s1) = 1%nat ∧
    (L.n_epochs la0 = 1%Z → @optimize_layout env0 2 la0 dev0 = Some s1).
Proof.
  apply (@first_epoch_idle env0 2 la0 dev0).
  - reflexivity.
  - simpl. lia.
  - intros row Hrow.
    assert (row = 0 ∨ row = 1)%Z as [-> | ->] by (simpl in Hrow; lia);
      eexists; (split; [reflexivity|by vm_compute]).
Defined.

Lemma optimize_layout_no_epoch_witness :
  ∃ s, @optimize_layout env0 2 la_none dev0 = Some s ∧
       mem (ks s) = dev0 ∧ adds (ks s) = [] ∧ launches s = [] ∧
       alpha s = ML.initial_alpha (L.params la_none).
Proof.
  apply (@optimize_layout_no_epoch env0 2 la_none dev0).
  - simpl. lia.
  - simpl. lia.
Defined.

Lemma launcher_launch_count_witness :
  ∃ inp' s,
    @launcher env0 2 3 2 coo0 params0 emb0 dev0 = Some (inp', s) ∧
    length (launches s) =
      Z.to_nat (if (ML.n_epochs params0 <=? 0)%Z
                then (if (3 <=? 10000)%Z then 500 else 200)
                else ML.n_epochs params0) ∧
    ∀ e args,
      lookupZ (launches s) e = Some args →
      K.epoch args = e ∧
      K.head args = COO.rows (coo_remove_zeros inp') ∧
      K.tail args = COO.cols (coo_remove_zeros inp') ∧
      K.nnz args = COO.nnz (coo_remove_zeros inp') ∧
      K.head_n args = 3%Z ∧ K.tail_n args = 3%Z ∧ K.n_vertices args = 3%Z ∧
      K.gamma args = ML.repulsion_strength params0 ∧
      K.params args = params0.
Proof.
  eexists _, _. split; [vm_compute; reflexivity|].
  eapply (@launcher_launch_count env0 2 3 2 coo0 params0 emb0 dev0).
  vm_compute. reflexivity.
Defined.

Lemma launcher_prune_keeps_max_witness :
  ∃ inp',
    launcher_prune 3 coo0 params0 = Some (inp', 2%Z) ∧
    COO.vals inp' = [0; 0.5; 1] ∧
    (∃ wm', max_element (take (Z.to_nat (COO.nnz coo0)) (COO.vals inp'))
              = Some wm' ∧ wm' == 1) ∧
    ∀ w, w ∈ take (Z.to_nat (COO.nnz coo0)) (COO.vals inp') →
         w = 0 ∨ 1 / inject_Z 2 <= w.
Proof.
  eexists. split; [vm_compute; reflexivity|]. split; [reflexivity|].
  apply (launcher_prune_keeps_max 3 coo0 params0 _ 2 1).
  - vm_compute. reflexivity.
  - reflexivity.
  - reflexivity.
Defined.

Lemma coo0_weights_nonneg :
  ∀ w, w ∈ take (Z.to_nat (COO.nnz coo0)) (COO.vals coo0) → 0 <= w.
Proof.
  intros w Hw. simpl in Hw.
  repeat (apply elem_of_cons in Hw as [->|Hw]; [by vm_compute|]).
  by apply elem_of_nil in Hw.
Qed.

(** C3 on a call of the launcher that keeps two edges and runs two
    epochs. *)
Lemma launcher_counters_monotone_witness :
  ∃ inp' s,
    @launcher env0 2 3 2 coo0 params0 emb0 dev0 = Some (inp', s) ∧
    ∃ epochs_per_sample epochs_per_negative_sample,
      let out := coo_remove_zeros inp' in
      let la :=
        launcher_layout_args 3 out epochs_per_sample
          params0 (effective_n_epochs 3 params0) emb0 in
      make_epochs_per_sample (COO.vals out) (COO.nnz out)
        (effective_n_epochs 3 params0) (device_buffer (COO.nnz out))
        = Some epochs_per_sample ∧
      @optimize_layout env0 2 la dev0 = Some s ∧
      epochs_per_negative_sample_of la = Some epochs_per_negative_sample ∧
      ∀ row, (0 ≤ row < COO.nnz out)%Z →
        ∃ eps epns,
          lookupZ epochs_per_sample row = Some eps ∧
          lookupZ epochs_per_negative_sample row = Some epns ∧
          (∃ s0, @optimize_layout_steps env0 2 la 0 dev0 = Some s0 ∧
                 counters_at (ks s0) row = Some (eps, epns)) ∧
          ∀ k1 k2 : nat,
            (k1 ≤ k2)%nat → (k2 ≤ Z.to_nat (L.n_epochs la))%nat →
            ∃ s1 s2 c1 c2,
              @optimize_layout_steps env0 2 la k1 dev0 = Some s1 ∧
              @optimize_layout_steps env0 2 la k2 dev0 = Some s2 ∧
              counters_at (ks s1) row = Some c1 ∧
              counters_at (ks s2) row = Some c2 ∧
              c1.1 <= c2.1 ∧ c1.2 <= c2.2.
Proof.
  eexists _, _. split; [vm_compute; reflexivity|].
  eapply (@launcher_counters_monotone env0 2 3 2 coo0 params0 emb0 dev0).
  vm_compute. reflexivity.
Defined.

Lemma launcher_schedule_positive_witness :
  ∃ inp' s,
    @launcher env0 2 3 2 coo0 params0 emb0 dev0 = Some (inp', s) ∧
    ∀ args row e,
      args ∈ launches s →
      lookupZ (K.epochs_per_sample args) row = Some e →
      1 <= e.
Proof.
  eexists _, _. split; [vm_compute; reflexivity|].
  eapply (@launcher_schedule_positive env0 2 3 2 coo0 params0 emb0 dev0).
  - vm_compute. reflexivity.
  - exact coo0_weights_nonneg.
Defined.

Lemma launcher_single_epoch_idle_witness :
  ∃ inp' s,
    @launcher env0 2 3 2 coo0 params1 emb0 dev0 = Some (inp', s) ∧
    mem (ks s) = dev0 ∧ adds (ks s) = [] ∧ length (launches s) = 1%nat.
Proof.
  eexists _, _. split; [vm_compute; reflexivity|].
  eapply (@launcher_single_epoch_idle env0 2 3 2 coo0 params1 emb0 dev0).
  - vm_compute. reflexivity.
  - reflexivity.
  - reflexivity.
  - exact coo0_weights_nonneg.
Defined.

